(** * friends-lang: the resolver core of [try-friends/src/core/evaluating.ts]

    A shallow embedding of the term model, the substitution environment,
    unification, the knowledge base and the depth-first prover with cut,
    followed by the properties of the resolver that are checked against it. *)

From Stdlib Require Import ZArith Lia Bool.
From stdpp Require Import base option list gmap strings.

Local Open Scope Z_scope.

(** ** Abstract syntax ([./ast]) *)

Module Ast.

Abbreviation Pred := string.
Abbreviation Atom := string.
Abbreviation VarId := Z.

(** [interface Var { varId; varName }].  Identifiers are JavaScript numbers;
    the factory only produces positive integers and the parser the
    sentinel [-1], all far below 2^53, so they are modelled by [Z]. *)
Record Var : Type := mkVar { varId : VarId; varName : string }.

(** The four shapes the evaluator dispatches on with ['var' in term],
    ['atom' in term], ['f' in term] and ['head' in term]. *)
Inductive Term : Type :=
| VarTerm (var : Var)
| AtomTerm (atom : Atom)
| AppTerm (f : Atom) (x : Term)
| ConsTerm (head tail : Term).

Definition nilTerm : Term := AtomTerm "nil".

Record PredProp : Type := mkPredProp { pred : Pred; term : Term }.

(** [type Prop = PredProp | ConjProp]. *)
Inductive Prop_ : Type :=
| Atomic (p : PredProp)
| ConjProp (left right : Prop_).

Definition CutProp : PredProp := {| pred := "!"; term := nilTerm |}.
Definition TrueProp : PredProp := {| pred := "true"; term := nilTerm |}.

(** [goal?: Prop | undefined]. *)
Record Rule : Type := mkRule { head : PredProp; goal : option Prop_ }.

(** [{ varName, unbound: true } | { varName, term }]. *)
Inductive Assignment : Type :=
| Unbound (name : string)
| Bound (name : string) (value : Term).

Definition Solution := list Assignment.

#[global] Instance Var_eq_dec : EqDecision Var.
Proof. solve_decision. Defined.

#[global] Instance Term_eq_dec : EqDecision Term.
Proof. solve_decision. Defined.

End Ast.

Import Ast.

(** [Knowledge]: a JavaScript object from predicate names to rule arrays;
    the map holds its own properties.  The empty string is an ordinary
    property name. *)
Abbreviation Knowledge := (gmap string (list Rule)).

(** The objects are made by [{}] and by spreading, so that reading a
    property they do not have themselves goes on to [Object.prototype].
    These are its property names (ECMAScript, with Annex B); the values
    there are functions, and the prototype object under [__proto__]: none
    of them can be iterated or spread into an array. *)
Definition objectPrototype : list string :=
  [ "constructor"; "hasOwnProperty"; "isPrototypeOf"; "propertyIsEnumerable";
    "toLocaleString"; "toString"; "valueOf"; "__proto__";
    "__defineGetter__"; "__defineSetter__"; "__lookupGetter__";
    "__lookupSetter__" ].

Definition inherited (name : string) : bool :=
  bool_decide (name ∈ objectPrototype).

(** [Env]: a JavaScript object from variable names to objects that map
    variable ids to terms. *)
Abbreviation Env := (gmap string (gmap Z Term)).

(** ** The variable factory

    [nextVarId] is a closure over a private counter: [() => ++count].
    The counter is threaded explicitly: a call takes the current count and
    returns the new id together with the new count (the same number). *)

Definition nextVarId (count : Z) : Z * Z := (count + 1, count + 1).

(** ** Term and proposition operations *)

Module Term.

Fixpoint vars (term : Ast.Term) : list Var :=
  match term with
  | VarTerm v => [v]
  | AtomTerm _ => []
  | AppTerm _ x => vars x
  | ConsTerm h t => vars h ++ vars t
  end.

Fixpoint withVarId (term : Ast.Term) (id : VarId) : Ast.Term :=
  match term with
  | VarTerm v => VarTerm {| varId := id; varName := varName v |}
  | AtomTerm _ => term
  | AppTerm f x => AppTerm f (withVarId x id)
  | ConsTerm h t => ConsTerm (withVarId h id) (withVarId t id)
  end.

End Term.

Module Prop_.

Fixpoint withVarId (prop : Ast.Prop_) (id : VarId) : Ast.Prop_ :=
  match prop with
  | Atomic p => Atomic {| pred := pred p; term := Term.withVarId (term p) id |}
  | ConjProp l r => ConjProp (withVarId l id) (withVarId r id)
  end.

Definition refresh (prop : Ast.Prop_) (count : Z) : Ast.Prop_ * Z :=
  let '(id, count') := nextVarId count in
  (withVarId prop id, count').

Fixpoint vars (prop : Ast.Prop_) : list Var :=
  match prop with
  | Atomic p => Term.vars (term p)
  | ConjProp l r => vars l ++ vars r
  end.

End Prop_.

Module Rule.

Definition refresh (rule : Ast.Rule) (count : Z) : Ast.Rule * Z :=
  let '(id, count') := nextVarId count in
  ({| head := {| pred := pred (head rule);
                 term := Term.withVarId (term (head rule)) id |};
      goal := match goal rule with
              | Some g => Some (Prop_.withVarId g id)
              | None => None
              end |},
   count').

End Rule.

(** ** Knowledge base *)

Module Knowledge.

Definition default : Knowledge := ∅.

(** [knowledge[predName] || []]: the array the object has under the name;
    without one, the member of [Object.prototype] of that name, if there is
    one, and else the empty array.  [None] stands for such a member: a
    value that is no array, on which [for ... of] and the array spread
    throw a [TypeError]. *)
Definition rules (knowledge : Knowledge) (predName : string) : option (list Rule) :=
  match knowledge !! predName with
  | Some rs => Some rs
  | None => if inherited predName then None else Some []
  end.

(** [None]: the spread [[...(knowledge[predName] || []), rule]] throws. *)
Definition assume (knowledge : Knowledge) (rule : Rule) : option Knowledge :=
  let predName := pred (head rule) in
  match rules knowledge predName with
  | Some old => Some (<[predName := old ++ [rule]]> knowledge)
  | None => None
  end.

Fixpoint assumeMany (knowledge : Knowledge) (rs : list Rule) : option Knowledge :=
  match rs with
  | [] => Some knowledge
  | rule :: rest =>
    match assume knowledge rule with
    | Some k => assumeMany k rest
    | None => None
    end
  end.

(** The knowledge base that a call returned.  The scenarios below assume
    rules under names on which [assume] returns; [default] fills the type
    for a call that threw. *)
Definition returned (result : option Knowledge) : Knowledge :=
  match result with
  | Some k => k
  | None => default
  end.

End Knowledge.

(** ** Environment *)

Module Env.

Definition default : Env := ∅.

Definition tryFind (env : Env) (v : Var) : option Term :=
  match env !! varName v with
  | None => None
  | Some idMap => idMap !! varId v
  end.

(** [substitute] recurses through bindings, so it need not terminate
    (an environment may bind [X] to [f(X)]).  The recursion depth is bounded
    by [fuel]; [None] means the bound was reached. *)
Fixpoint substitute (fuel : nat) (env : Env) (term : Term) : option Term :=
  match fuel with
  | O => None
  | S n =>
    match term with
    | VarTerm v =>
      match tryFind env v with
      | None => Some term
      | Some bound => substitute n env bound
      end
    | AtomTerm _ => Some term
    | AppTerm f x =>
      match substitute n env x with
      | Some x' => Some (AppTerm f x')
      | None => None
      end
    | ConsTerm h t =>
      match substitute n env h with
      | Some h' =>
        match substitute n env t with
        | Some t' => Some (ConsTerm h' t')
        | None => None
        end
      | None => None
      end
    end
  end.

(** The guard [substTerm.var.varName === v.varName &&
    substTerm.var.varId === v.varId] on a ['var' in substTerm]. *)
Definition isVar (substTerm : Term) (v : Var) : bool :=
  match substTerm with
  | VarTerm w => String.eqb (varName w) (varName v) && Z.eqb (varId w) (varId v)
  | _ => false
  end.

(** The object that [bind] builds when it does bind:
    [{ ...env, [v.varName]: { ...(env[v.varName] || {}), [v.varId]: substTerm } }]. *)
Definition insert (env : Env) (v : Var) (substTerm : Term) : Env :=
  let old : gmap Z Term :=
    match env !! varName v with
    | Some m => m
    | None => ∅
    end in
  let idMap := <[varId v := substTerm]> old in
  <[varName v := idMap]> env.

Definition bind (fuel : nat) (env : Env) (v : Var) (term : Term) : option Env :=
  match substitute fuel env term with
  | None => None
  | Some substTerm =>
    if isVar substTerm v then Some env else Some (insert env v substTerm)
  end.

(** [tryUnify] returns [Env | undefined].  Outer [None]: the recursion
    bound was reached; [Some None]: the code returns [undefined];
    [Some (Some env')]: the code returns [env'].

    [tryUnifyVar] is the local helper of the source; [unify] stands for
    its calls back into [Env.tryUnify]. *)
Definition tryUnifyVar (unify : Env → Term → Term → option (option Env))
    (fuel : nat) (env : Env) (v : Var) (term : Term) : option (option Env) :=
  match tryFind env v with
  | None =>
    match bind fuel env v term with
    | Some env' => Some (Some env')
    | None => None
    end
  | Some bound =>
    match substitute fuel env bound with
    | Some t => unify env term t
    | None => None
    end
  end.

Fixpoint tryUnify (fuel : nat) (env : Env) (lTerm rTerm : Term)
  : option (option Env) :=
  match fuel with
  | O => None
  | S n =>
    match lTerm, rTerm with
    | VarTerm v, _ => tryUnifyVar (tryUnify n) n env v rTerm
    | _, VarTerm v => tryUnifyVar (tryUnify n) n env v lTerm
    | AtomTerm a, AtomTerm b =>
      if String.eqb a b then Some (Some env) else Some None
    | AppTerm f x, AppTerm g y =>
      if String.eqb f g then tryUnify n env x y else Some None
    | ConsTerm h1 t1, ConsTerm h2 t2 =>
      match tryUnify n env h1 h2 with
      | None => None
      | Some None => Some None
      | Some (Some env2) => tryUnify n env2 t1 t2
      end
    | _, _ => Some None
    end
  end.

End Env.

(** ** Generators

    [provePred], [proveProp], [proveCore] and [query] are generator
    functions.  A generator is modelled by what a consumer that pulls from
    it observes: it is finished, or it yields a value and can be resumed.
    The id counter is the only state shared between a generator and its
    consumer, so each event carries the counter at that point and a resumed
    generator receives the counter of that later moment.  Nothing behind a
    [resume] is evaluated unless the consumer asks for it, which is what
    makes an early [return] inside a [for ... of] body cut off the rest of
    the enumeration.  A generator can also end without an event of these
    kinds: [Abort OutOfFuel] stands for a recursion bound that was reached
    before the next event, [Abort TypeError] for the exception that
    iterating a value that is no array throws; no loop of the source
    catches it, so it ends every generator on the way to the consumer. *)

Inductive Failure : Type :=
| OutOfFuel
| TypeError.

Inductive Gen (A : Type) : Type :=
| Done (count : Z)
| Yield (value : A) (count : Z) (resume : Z → Gen A)
| Abort (failure : Failure).

Arguments Done {A} count.
Arguments Yield {A} value count resume.
Arguments Abort {A} failure.

(** The spread [[...gen]] by a consumer that leaves the counter alone:
    all yielded values and the counter at the end. *)
Fixpoint toList {A : Type} (gen : Gen A) : option (list A * Z) :=
  match gen with
  | Done count => Some ([], count)
  | Abort _ => None
  | Yield a count resume =>
    match toList (resume count) with
    | Some (rest, count') => Some (a :: rest, count')
    | None => None
    end
  end.

(** ** Prover *)

Record ProveResult : Type := mkProveResult { env : Env; cut : bool }.

Definition isNil (t : Term) : bool :=
  match t with
  | AtomTerm a => String.eqb a "nil"
  | _ => false
  end.

(** The loop [for (const { env: env3, cut } of results)] of [provePred]:
    every result of the rule's goal is yielded with the flag cleared; after
    a result that carried the flag the generator returns; when the goal has
    no more results the enclosing loop goes on to the next rule. *)
Fixpoint goalLoop (results : Gen ProveResult) (nextRule : Z → Gen ProveResult)
  : Gen ProveResult :=
  match results with
  | Done count => nextRule count
  | Abort e => Abort e
  | Yield r count resume =>
    Yield {| env := env r; cut := false |} count
          (fun count' =>
             if cut r then Done count' else goalLoop (resume count') nextRule)
  end.

(** The loop [for (const defaultRule of rules)] of [provePred].
    [proveGoal] is the recursive call [proveProp(rule.goal, env2, knowledge)]. *)
Fixpoint ruleLoop (proveGoal : Prop_ → Env → Z → Gen ProveResult)
    (fuel : nat) (prop : PredProp) (env0 : Env) (rules : list Rule) (count : Z)
  : Gen ProveResult :=
  match rules with
  | [] => Done count
  | defaultRule :: rest =>
    let '(rule, count1) := Rule.refresh defaultRule count in
    match Env.tryUnify fuel env0 (term prop) (term (head rule)) with
    | None => Abort OutOfFuel
    | Some None => ruleLoop proveGoal fuel prop env0 rest count1
    | Some (Some env2) =>
      match goal rule with
      | None =>
        Yield {| env := env2; cut := false |} count1
              (fun count' => ruleLoop proveGoal fuel prop env0 rest count')
      | Some g =>
        goalLoop (proveGoal g env2 count1)
                 (fun count' => ruleLoop proveGoal fuel prop env0 rest count')
      end
    end
  end.

Definition provePredWith (proveGoal : Prop_ → Env → Z → Gen ProveResult)
    (fuel : nat) (prop : PredProp) (env0 : Env) (knowledge : Knowledge) (count : Z)
  : Gen ProveResult :=
  if String.eqb (pred prop) (pred CutProp) && isNil (term prop) then
    Yield {| env := env0; cut := true |} count Done
  else if String.eqb (pred prop) (pred TrueProp) && isNil (term prop) then
    Yield {| env := env0; cut := false |} count Done
  else
    match Knowledge.rules knowledge (pred prop) with
    | Some rules => ruleLoop proveGoal fuel prop env0 rules count
    | None => Abort TypeError
    end.

(** [for (const result of provePred(...)) yield result]. *)
Fixpoint reyield {A : Type} (gen : Gen A) : Gen A :=
  match gen with
  | Done count => Done count
  | Abort e => Abort e
  | Yield a count resume => Yield a count (fun count' => reyield (resume count'))
  end.

(** The inner loop of the conjunction case, over the results of the right
    conjunct under one result of the left one. *)
Fixpoint rightLoop (cut2 : bool) (rights : Gen ProveResult)
    (nextLeft : Z → Gen ProveResult) : Gen ProveResult :=
  match rights with
  | Done count => nextLeft count
  | Abort e => Abort e
  | Yield r count resume =>
    Yield {| env := env r; cut := cut2 || cut r |} count
          (fun count' => rightLoop cut2 (resume count') nextLeft)
  end.

(** The outer loop of the conjunction case, over the results of the left
    conjunct. *)
Fixpoint leftLoop (lefts : Gen ProveResult)
    (proveRight : Env → Z → Gen ProveResult) : Gen ProveResult :=
  match lefts with
  | Done count => Done count
  | Abort e => Abort e
  | Yield r count resume =>
    rightLoop (cut r) (proveRight (env r) count)
              (fun count' => leftLoop (resume count') proveRight)
  end.

(** [proveProp] and [provePred] call each other; one unit of [fuel] is
    spent per call of [proveProp], and unification inside a call runs under
    the remaining bound. *)
Fixpoint proveProp (fuel : nat) (prop : Prop_) (env0 : Env)
    (knowledge : Knowledge) (count : Z) : Gen ProveResult :=
  match fuel with
  | O => Abort OutOfFuel
  | S n =>
    match prop with
    | Atomic p =>
      reyield (provePredWith (fun g e c => proveProp n g e knowledge c)
                             n p env0 knowledge count)
    | ConjProp l r =>
      leftLoop (proveProp n l env0 knowledge count)
               (fun env2 count' => proveProp n r env2 knowledge count')
    end
  end.

Definition provePred (fuel : nat) (prop : PredProp) (env0 : Env)
    (knowledge : Knowledge) (count : Z) : Gen ProveResult :=
  provePredWith (fun g e c => proveProp fuel g e knowledge c)
                fuel prop env0 knowledge count.

(** [proveCore]: the environments of the results, without the flag. *)
Fixpoint envsOf (results : Gen ProveResult) : Gen Env :=
  match results with
  | Done count => Done count
  | Abort e => Abort e
  | Yield r count resume => Yield (env r) count (fun count' => envsOf (resume count'))
  end.

Definition proveCore (fuel : nat) (prop : Prop_) (env0 : Env)
    (knowledge : Knowledge) (count : Z) : Gen Env :=
  envsOf (proveProp fuel prop env0 knowledge count).

(** ** Query driver *)

(** Modelled from the spec: [distinct] of [./iterable], which is not among
    the sources.  The spec has it keep the distinct variables in the order
    of their first occurrence, two variables being the same when name and
    id agree. *)
Fixpoint distinctFrom (seen : list Var) (vs : list Var) : list Var :=
  match vs with
  | [] => []
  | v :: rest =>
    if bool_decide (v ∈ seen) then distinctFrom seen rest
    else v :: distinctFrom (v :: seen) rest
  end.

Definition distinct (vs : list Var) : list Var := distinctFrom [] vs.

(** The body of [for (const v of vars)] in [query]. *)
Definition assignment (fuel : nat) (localEnv : Env) (v : Var) : option Assignment :=
  match Env.substitute fuel localEnv (VarTerm v) with
  | None => None
  | Some t =>
    let unbound :=
      match t with
      | VarTerm w =>
        match Env.tryFind localEnv w with
        | None => true
        | Some _ => false
        end
      | _ => false
      end in
    Some (if unbound then Unbound (varName v) else Bound (varName v) t)
  end.

Fixpoint solution (fuel : nat) (localEnv : Env) (vs : list Var) : option Solution :=
  match vs with
  | [] => Some []
  | v :: rest =>
    match assignment fuel localEnv v with
    | None => None
    | Some a =>
      match solution fuel localEnv rest with
      | None => None
      | Some s => Some (a :: s)
      end
    end
  end.

Fixpoint solutionsOf (fuel : nat) (vs : list Var) (envs : Gen Env) : Gen Solution :=
  match envs with
  | Done count => Done count
  | Abort e => Abort e
  | Yield localEnv count resume =>
    match solution fuel localEnv vs with
    | None => Abort OutOfFuel
    | Some s => Yield s count (fun count' => solutionsOf fuel vs (resume count'))
    end
  end.

Definition query (fuel : nat) (prop : Prop_) (globalEnv : Env)
    (globalKnowledge : Knowledge) (count : Z) : Gen Solution :=
  let '(prop', count1) := Prop_.refresh prop count in
  let vs := distinct (Prop_.vars prop') in
  solutionsOf fuel vs (proveCore fuel prop' globalEnv globalKnowledge count1).

(** ** The proof-system facade *)

Record ImplProofSystem : Type := mkImplProofSystem { knowledge : Knowledge }.

Module ImplProofSystem.

Definition assume (this : ImplProofSystem) (rule : Rule) : option ImplProofSystem :=
  match Knowledge.assume (knowledge this) rule with
  | Some k => Some {| knowledge := k |}
  | None => None
  end.

Definition query (fuel : nat) (this : ImplProofSystem) (prop : Prop_) (count : Z)
  : Gen Solution :=
  query fuel prop Env.default (knowledge this) count.

End ImplProofSystem.

Definition createProofSystem : ImplProofSystem :=
  {| knowledge := Knowledge.default |}.

(** ** The knowledge base as JavaScript objects

    [Knowledge.assume] builds its result with spread syntax: a new array
    [[...old, rule]] and a new object [{ ...knowledge, [predName]: rules }].
    To see that the receiver is left alone, the objects involved are placed
    in a store and referred to by location.  A knowledge object maps
    predicate names to the locations of rule arrays; the spread copies
    those locations, so old and new knowledge share the arrays of every
    other predicate. *)

Module Store.

Definition loc := nat.

Inductive object : Type :=
| RuleArray (elems : list Rule)
| KnowledgeObject (props : gmap string loc)
| ProofSystemObject (knowledgeRef : loc).

Abbreviation Heap := (list object).

(** A new object is placed at the next unused location. *)
Definition alloc (h : Heap) (o : object) : loc * Heap :=
  (length h, h ++ [o]).

(** [Knowledge.default()]: a new empty object. *)
Definition default (h : Heap) : loc * Heap :=
  alloc h (KnowledgeObject ∅).

(** The elements of [knowledge[predName] || []]; [None] when the value is
    no array, that is the member of [Object.prototype] of that name, or
    when a location does not hold an object of the expected kind, which
    the types of the source exclude. *)
Definition rules (h : Heap) (k : loc) (predName : string) : option (list Rule) :=
  match h !! k with
  | Some (KnowledgeObject props) =>
    match props !! predName with
    | None => if inherited predName then None else Some []
    | Some a =>
      match h !! a with
      | Some (RuleArray rs) => Some rs
      | _ => None
      end
    end
  | _ => None
  end.

Definition assume (h : Heap) (k : loc) (rule : Rule) : option (loc * Heap) :=
  let predName := pred (head rule) in
  match h !! k with
  | Some (KnowledgeObject props) =>
    match rules h k predName with
    | Some old =>
      let '(a, h1) := alloc h (RuleArray (old ++ [rule])) in
      let '(k', h2) := alloc h1 (KnowledgeObject (<[predName := a]> props)) in
      Some (k', h2)
    | None => None
    end
  | _ => None
  end.


(** [createProofSystem()]. *)
Definition createProofSystem (h : Heap) : loc * Heap :=
  let '(k, h1) := default h in
  alloc h1 (ProofSystemObject k).



(** Every array a knowledge object refers to is in the store. *)
Definition wellFormed (h : Heap) (k : loc) : Prop :=
  ∃ props, h !! k = Some (KnowledgeObject props) ∧
    ∀ p a, props !! p = Some a → ∃ rs, h !! a = Some (RuleArray rs).


End Store.

(** * Vocabulary of the properties *)

(** [substitute] returns [r] on [t]: some recursion bound is enough. *)
Definition substitutes (env0 : Env) (t r : Term) : Prop :=
  ∃ n, Env.substitute n env0 t = Some r.

(** [tryUnify] returns the environment [env']. *)
Definition unifies (env0 : Env) (a b : Term) (env' : Env) : Prop :=
  ∃ n, Env.tryUnify n env0 a b = Some (Some env').

(** An environment extends another when it keeps all of its bindings. *)
Definition extends (env0 env' : Env) : Prop :=
  ∀ v t, Env.tryFind env0 v = Some t → Env.tryFind env' v = Some t.

Definition unify_extends (unify : Env → Term → Term → option (option Env)) : Prop :=
  ∀ env0 a b env', unify env0 a b = Some (Some env') → extends env0 env'.

Definition unify_agrees (unify : Env → Term → Term → option (option Env)) : Prop :=
  ∀ env0 a b env', unify env0 a b = Some (Some env') →
    ∀ r, substitutes env' a r ↔ substitutes env' b r.

(** The environments that calls of [Env.bind] build from the empty one. *)
Inductive reachable : Env → Prop :=
| reachable_default : reachable Env.default
| reachable_bind n env0 v t env' :
    reachable env0 → Env.bind n env0 v t = Some env' → reachable env'.

(** [link env w v]: the environment binds the variable [v] to the
    variable [w]. *)
Definition link (env0 : Env) (w v : Var) : Prop :=
  Env.tryFind env0 v = Some (VarTerm w).

(** [derefs env v k t]: following the bindings from [v] through [k]
    lookups that found one ends at [t], an unbound variable or a term that
    is not a variable. *)
Inductive derefs (env0 : Env) : Var → nat → Term → Prop :=
| derefs_unbound v :
    Env.tryFind env0 v = None → derefs env0 v 0 (VarTerm v)
| derefs_nonvar v t :
    Env.tryFind env0 v = Some t → (∀ w, t ≠ VarTerm w) → derefs env0 v 1 t
| derefs_link v w k t :
    Env.tryFind env0 v = Some (VarTerm w) → derefs env0 w k t →
    derefs env0 v (S k) t.

(** ** The terms and environments of the examples *)

Definition varX : Var := {| varId := -1; varName := "x" |}.
Definition varY : Var := {| varId := -1; varName := "y" |}.
Definition xSocrates : Term := AtomTerm "socrates".
Definition xPlato : Term := AtomTerm "plato".

(** [listTerm(x, plato)], [listTerm(socrates, y)] and
    [listTerm(socrates, plato)]. *)
Definition listXPlato : Term :=
  ConsTerm (VarTerm varX) (ConsTerm xPlato nilTerm).
Definition listSocratesY : Term :=
  ConsTerm xSocrates (ConsTerm (VarTerm varY) nilTerm).
Definition listSocratesPlato : Term :=
  ConsTerm xSocrates (ConsTerm xPlato nilTerm).

(** [x] bound to [socrates]; then also [y] bound to [plato]. *)
Definition xSocratesEnv : Env := Env.insert Env.default varX xSocrates.
Definition listEnv : Env := Env.insert xSocratesEnv varY xPlato.

(** [x] bound to [f(x)]. *)
Definition cyclicEnv : Env :=
  Env.insert Env.default varX (AppTerm "f" (VarTerm varX)).

(** [x] bound to [y] and [y] bound to [socrates]. *)
Definition chainEnv : Env :=
  Env.insert (Env.insert Env.default varX (VarTerm varY)) varY xSocrates.

(** ** The knowledge bases of the scenarios *)

Definition free (name : string) : Term :=
  VarTerm {| varId := -1; varName := name |}.

Definition fact (p : Pred) (t : Term) : Rule :=
  {| head := {| pred := p; term := t |}; goal := None |}.

Definition mortal (t : Term) : PredProp := {| pred := "mortal"; term := t |}.
Definition human (t : Term) : PredProp := {| pred := "human"; term := t |}.

(** [mortal(X) :- human(X).  human(socrates).  human(plato).] *)
Definition major : Rule :=
  {| head := mortal (free "x"); goal := Some (Atomic (human (free "x"))) |}.
Definition minor : Rule := fact "human" xSocrates.
Definition platoRule : Rule := fact "human" xPlato.

Definition syllogism : Knowledge :=
  Knowledge.returned
    (Knowledge.assume
       (Knowledge.returned (Knowledge.assumeMany Knowledge.default [major; minor]))
       platoRule).

(** [unknown(X).  unknown(a).] *)
Definition unknowns : Knowledge :=
  Knowledge.returned
    (Knowledge.assumeMany Knowledge.default
       [fact "unknown" (free "x"); fact "unknown" (AtomTerm "a")]).

(** Predicates without arguments take [nil], like the built-in ones. *)
Definition nullary (p : Pred) : PredProp := {| pred := p; term := nilTerm |}.

(** [p :- !, q.] *)
Definition pCutQ : Rule :=
  {| head := nullary "p";
     goal := Some (ConjProp (Atomic CutProp) (Atomic (nullary "q"))) |}.

(** [p :- r.] *)
Definition pR : Rule :=
  {| head := nullary "p"; goal := Some (Atomic (nullary "r")) |}.

(** [p :- true, q.] *)
Definition pTrueQ : Rule :=
  {| head := nullary "p";
     goal := Some (ConjProp (Atomic TrueProp) (Atomic (nullary "q"))) |}.

(** The knowledge base [first.  second.  q.  r.] *)
Definition cutKnowledge (first second : Rule) : Knowledge :=
  Knowledge.returned
    (Knowledge.assumeMany Knowledge.default
       [first; second; fact "q" nilTerm; fact "r" nilTerm]).

(** A caller of [p]: the knowledge base above with [s :- p.] and
    [s :- r.] added. *)
Definition sP : Rule :=
  {| head := nullary "s"; goal := Some (Atomic (nullary "p")) |}.
Definition sR : Rule :=
  {| head := nullary "s"; goal := Some (Atomic (nullary "r")) |}.
Definition callerKnowledge : Knowledge :=
  Knowledge.returned (Knowledge.assumeMany (cutKnowledge pCutQ pR) [sP; sR]).

(** ** Properties of what a generator yields *)

(** Every value the generator yields, however the counter stands when it
    is resumed, satisfies [P]. *)
Fixpoint allYields {A : Type} (P : A → Prop) (gen : Gen A) : Prop :=
  match gen with
  | Done _ => True
  | Abort _ => True
  | Yield a _ resume => P a ∧ ∀ count, allYields P (resume count)
  end.

(** The flag of a result of the right conjunct, joined with the flag
    [cut2] of the result of the left conjunct it was proved under. *)
Definition withCut (cut2 : bool) (r : ProveResult) : ProveResult :=
  {| env := env r; cut := cut2 || cut r |}.

Definition assignmentName (a : Assignment) : string :=
  match a with
  | Unbound name => name
  | Bound name _ => name
  end.

(** A store that holds one empty knowledge base, at location 0. *)
Definition emptyStore : Store.Heap := (Store.default []).2.

(** ** Further vocabulary *)

(** The nesting depth of a term: the number of calls [substitute] stacks
    on it when no variable of it is bound. *)
Fixpoint termDepth (t : Term) : nat :=
  match t with
  | VarTerm _ => 0
  | AtomTerm _ => 0
  | AppTerm _ x => S (termDepth x)
  | ConsTerm h tl => S (Nat.max (termDepth h) (termDepth tl))
  end.

(** [listTerm(...terms)] of the test suite: the cons cells of the terms,
    ended by [nil], built from the last term backwards. *)
Definition listTerm (terms : list Term) : Term :=
  foldr ConsTerm nilTerm terms.

(** Two terms come to the same under an environment: [substitute] returns
    on the one exactly when it returns on the other, with the same term. *)
Definition agree (env0 : Env) (a b : Term) : Prop :=
  ∀ r, substitutes env0 a r ↔ substitutes env0 b r.

(** The id counter never goes back: from a start at [count] every event
    of the generator carries a counter that is at least [count], as long
    as the consumer resumes it with a counter that is not below the one it
    was handed. *)
Fixpoint advancing {A : Type} (count : Z) (gen : Gen A) : Prop :=
  match gen with
  | Done count' => count ≤ count'
  | Abort _ => True
  | Yield _ count' resume =>
    count ≤ count' ∧ ∀ count'', count' ≤ count'' → advancing count'' (resume count'')
  end.

(** The variables of a rule: those of its head, then those of its goal. *)
Definition ruleVars (rule : Rule) : list Var :=
  Term.vars (term (head rule)) ++
  match goal rule with
  | Some g => Prop_.vars g
  | None => []
  end.

(** [p :- !, q.  p :- r.  r.]: the knowledge base of the cut scenario
    without the fact [q]. *)
Definition cutFailKnowledge : Knowledge :=
  Knowledge.returned
    (Knowledge.assumeMany Knowledge.default [pCutQ; pR; fact "r" nilTerm]).

(** Why a generator that is consumed to its end, by a consumer that leaves
    the counter alone, did not finish: the failure it ended with. *)
Fixpoint failureOf {A : Type} (gen : Gen A) : option Failure :=
  match gen with
  | Done _ => None
  | Abort e => Some e
  | Yield _ count resume => failureOf (resume count)
  end.

(** ** The enumeration in the words of the spec

    Section 4.5.1 of the spec describes the proof of an atomic proposition
    as an enumeration: the rules are taken in insertion order; a rule is
    renamed with a fresh id and its head unified with the goal; a rule
    that does not unify is passed over; a rule without a goal gives one
    result; otherwise each result of the goal is given with the flag
    masked, and after one that carried the flag the enumeration stops,
    for this rule and for the rules after it.  The functions below write
    this down on lists, without generators, to compare the loops of the
    source with it.  Each returns the results, the counter at the end, and
    whether a cut stopped it. *)

Definition clearCut (r : ProveResult) : ProveResult :=
  {| env := env r; cut := false |}.

(** The results of a goal up to and including the first that carries the
    flag; what the goal would yield after it is never asked for. *)
Fixpoint untilCut (results : Gen ProveResult) : option (list ProveResult * Z * bool) :=
  match results with
  | Done count => Some ([], count, false)
  | Abort _ => None
  | Yield r count resume =>
    if cut r then Some ([r], count, true)
    else
      match untilCut (resume count) with
      | Some (l, count', stopped) => Some (r :: l, count', stopped)
      | None => None
      end
  end.

Fixpoint enumerate (proveGoal : Prop_ → Env → Z → Gen ProveResult)
    (fuel : nat) (prop : PredProp) (env0 : Env) (rules : list Rule) (count : Z)
  : option (list ProveResult * Z * bool) :=
  match rules with
  | [] => Some ([], count, false)
  | rule :: rest =>
    let id := count + 1 in
    match Env.tryUnify fuel env0 (term prop) (Term.withVarId (term (head rule)) id) with
    | None => None
    | Some None => enumerate proveGoal fuel prop env0 rest id
    | Some (Some env1) =>
      match goal rule with
      | None =>
        match enumerate proveGoal fuel prop env0 rest id with
        | Some (l, count', stopped) =>
          Some ({| env := env1; cut := false |} :: l, count', stopped)
        | None => None
        end
      | Some g =>
        match untilCut (proveGoal (Prop_.withVarId g id) env1 id) with
        | None => None
        | Some (l1, count1, true) => Some (map clearCut l1, count1, true)
        | Some (l1, count1, false) =>
          match enumerate proveGoal fuel prop env0 rest count1 with
          | Some (l2, count2, stopped) => Some (map clearCut l1 ++ l2, count2, stopped)
          | None => None
          end
        end
      end
    end
  end.

(** Section 4.5.2: for each result of the left conjunct, in order, each
    result of the right conjunct under it, in order, with the flags
    joined. *)
Fixpoint enumerateConj (lefts : Gen ProveResult)
    (proveRight : Env → Z → Gen ProveResult) : option (list ProveResult * Z) :=
  match lefts with
  | Done count => Some ([], count)
  | Abort _ => None
  | Yield r count resume =>
    match toList (proveRight (env r) count) with
    | None => None
    | Some (l1, count1) =>
      match enumerateConj (resume count1) proveRight with
      | Some (l2, count2) => Some (map (withCut (cut r)) l1 ++ l2, count2)
      | None => None
      end
    end
  end.

(** What is left of an enumeration when the mark of the cut is dropped. *)
Definition withoutMark (x : list ProveResult * Z * bool) : list ProveResult * Z :=
  (x.1.1, x.1.2).

(** [q(a).  q(b).  r(c).  r(d).  p(X) :- q(X).  p(X) :- r(X).] *)
Definition branching : Knowledge :=
  Knowledge.returned
    (Knowledge.assumeMany Knowledge.default
       [ fact "q" (AtomTerm "a"); fact "q" (AtomTerm "b");
         fact "r" (AtomTerm "c"); fact "r" (AtomTerm "d");
         {| head := {| pred := "p"; term := free "x" |};
            goal := Some (Atomic {| pred := "q"; term := free "x" |}) |};
         {| head := {| pred := "p"; term := free "x" |};
            goal := Some (Atomic {| pred := "r"; term := free "x" |}) |} ]).


(** * Properties of the environment *)

Section EnvFacts.

Implicit Types (env : Env) (v w : Var) (t r : Term) (n m : nat).

Lemma var_eq_components v w :
  v = w ↔ varName v = varName w ∧ varId v = varId w.
Proof.
  destruct v, w; simpl; split.
  - by intros [= -> ->].
  - by intros [-> ->].
Qed.

Lemma isVar_spec t v : Env.isVar t v = true ↔ t = VarTerm v.
Proof.
  destruct t as [w| | |]; simpl; try (split; [discriminate | by intros]).
  rewrite andb_true_iff, String.eqb_eq, Z.eqb_eq. split.
  - intros H. f_equal. by apply var_eq_components.
  - intros [= ->]. done.
Qed.

Lemma tryFind_default v : Env.tryFind Env.default v = None.
Proof. reflexivity. Qed.

Lemma tryFind_insert_eq env v t : Env.tryFind (Env.insert env v t) v = Some t.
Proof.
  unfold Env.tryFind, Env.insert. rewrite lookup_insert_eq.
  apply lookup_insert_eq.
Qed.

Lemma tryFind_insert_ne env v w t :
  w ≠ v → Env.tryFind (Env.insert env v t) w = Env.tryFind env w.
Proof.
  intros Hne. unfold Env.tryFind, Env.insert.
  destruct (decide (varName v = varName w)) as [Hn|Hn].
  - rewrite <- Hn, lookup_insert_eq.
    assert (varId v ≠ varId w) as Hid.
    { intros Hid. apply Hne. symmetry. by apply var_eq_components. }
    rewrite lookup_insert_ne by done.
    by destruct (env !! varName v).
  - by rewrite lookup_insert_ne.
Qed.

Lemma extends_refl env : extends env env.
Proof. by intros v t. Qed.

Lemma extends_trans env1 env2 env3 :
  extends env1 env2 → extends env2 env3 → extends env1 env3.
Proof. intros H1 H2 v t Hv. by apply H2, H1. Qed.

Lemma extends_insert env v t :
  Env.tryFind env v = None → extends env (Env.insert env v t).
Proof.
  intros Hv w u Hw. rewrite tryFind_insert_ne; [done|].
  intros ->. congruence.
Qed.

(** ** Fuel *)

Lemma substitute_S n env t r :
  Env.substitute n env t = Some r → Env.substitute (S n) env t = Some r.
Proof.
  revert t r. induction n as [|n IH]; intros t r H; [discriminate|].
  destruct t as [v|a|f x|h tl]; simpl in H |- *.
  - destruct (Env.tryFind env v) as [b|]; [|done]. by apply IH.
  - done.
  - destruct (Env.substitute n env x) as [x'|] eqn:Hx; [|discriminate].
    apply IH in Hx. simpl in Hx. by rewrite Hx.
  - destruct (Env.substitute n env h) as [h'|] eqn:Hh; [|discriminate].
    destruct (Env.substitute n env tl) as [t'|] eqn:Ht; [|discriminate].
    apply IH in Hh, Ht. simpl in Hh, Ht. by rewrite Hh, Ht.
Qed.

Lemma substitute_mono n m env t r :
  (n ≤ m)%nat → Env.substitute n env t = Some r → Env.substitute m env t = Some r.
Proof.
  induction 1 as [|m _ IH]; [done|]. intros H. by apply substitute_S, IH.
Qed.

Lemma substitutes_det env t r1 r2 :
  substitutes env t r1 → substitutes env t r2 → r1 = r2.
Proof.
  intros [n Hn] [m Hm].
  apply (substitute_mono n (n `max` m)%nat) in Hn; [|lia].
  apply (substitute_mono m (n `max` m)%nat) in Hm; [|lia].
  congruence.
Qed.

(** ** Substitution *)

(** What [substitute] returns has no bound variable left. *)
Lemma substitute_vars_unbound n env t r :
  Env.substitute n env t = Some r →
  ∀ v, v ∈ Term.vars r → Env.tryFind env v = None.
Proof.
  revert t r. induction n as [|n IH]; intros t r H; [discriminate|].
  destruct t as [v|a|f x|h tl]; simpl in H.
  - destruct (Env.tryFind env v) as [b|] eqn:Hv; [by eapply IH|].
    injection H as <-. simpl. intros w Hw.
    apply list_elem_of_singleton in Hw. by subst.
  - injection H as <-. simpl. intros w Hw. by apply elem_of_nil in Hw.
  - destruct (Env.substitute n env x) as [x'|] eqn:Hx; [|discriminate].
    injection H as <-. simpl. by eapply IH.
  - destruct (Env.substitute n env h) as [h'|] eqn:Hh; [|discriminate].
    destruct (Env.substitute n env tl) as [t'|] eqn:Ht; [|discriminate].
    injection H as <-. simpl. intros w Hw.
    apply elem_of_app in Hw as [Hw|Hw]; eauto.
Qed.

(** Substituting again under the same bound returns the same term. *)
Lemma substitute_fixed n env t r :
  Env.substitute n env t = Some r → Env.substitute n env r = Some r.
Proof.
  revert t r. induction n as [|n IH]; intros t r H; [discriminate|].
  destruct t as [v|a|f x|h tl]; simpl in H.
  - destruct (Env.tryFind env v) as [b|] eqn:Hv.
    + by eapply substitute_S, IH.
    + injection H as <-. simpl. by rewrite Hv.
  - by injection H as <-.
  - destruct (Env.substitute n env x) as [x'|] eqn:Hx; [|discriminate].
    injection H as <-. simpl. by rewrite (IH _ _ Hx).
  - destruct (Env.substitute n env h) as [h'|] eqn:Hh; [|discriminate].
    destruct (Env.substitute n env tl) as [t'|] eqn:Ht; [|discriminate].
    injection H as <-. simpl. by rewrite (IH _ _ Hh), (IH _ _ Ht).
Qed.

(** Under an extension [env'] of [env], substituting [t] and substituting
    what [env] makes of [t] come to the same. *)
Lemma substitute_extends_fwd n m env env' t r r' :
  extends env env' →
  Env.substitute n env t = Some r →
  Env.substitute m env' t = Some r' →
  Env.substitute m env' r = Some r'.
Proof.
  intros Hext. revert m t r r'.
  induction n as [|n IH]; intros m t r r' H H'; [discriminate|].
  destruct m as [|m]; [discriminate|].
  destruct t as [v|a|f x|h tl]; simpl in H, H'.
  - destruct (Env.tryFind env v) as [b|] eqn:Hv.
    + rewrite (Hext _ _ Hv) in H'. by eapply substitute_S, IH.
    + injection H as <-. done.
  - injection H as <-. done.
  - destruct (Env.substitute n env x) as [x1|] eqn:Hx; [|discriminate].
    destruct (Env.substitute m env' x) as [x2|] eqn:Hx'; [|discriminate].
    injection H as <-. injection H' as <-. simpl.
    by rewrite (IH _ _ _ _ Hx Hx').
  - destruct (Env.substitute n env h) as [h1|] eqn:Hh; [|discriminate].
    destruct (Env.substitute n env tl) as [t1|] eqn:Ht; [|discriminate].
    destruct (Env.substitute m env' h) as [h2|] eqn:Hh'; [|discriminate].
    destruct (Env.substitute m env' tl) as [t2|] eqn:Ht'; [|discriminate].
    injection H as <-. injection H' as <-. simpl.
    by rewrite (IH _ _ _ _ Hh Hh'), (IH _ _ _ _ Ht Ht').
Qed.

Lemma substitute_extends_bwd n m env env' t r r' :
  extends env env' →
  Env.substitute n env t = Some r →
  Env.substitute m env' r = Some r' →
  Env.substitute (n + m) env' t = Some r'.
Proof.
  intros Hext. revert m t r r'.
  induction n as [|n IH]; intros m t r r' H H'; [discriminate|].
  destruct t as [v|a|f x|h tl]; simpl in H.
  - destruct (Env.tryFind env v) as [b|] eqn:Hv.
    + simpl. rewrite (Hext _ _ Hv). by eapply IH.
    + injection H as <-. eapply substitute_mono; [|done]. lia.
  - injection H as <-. eapply substitute_mono; [|done]. lia.
  - destruct (Env.substitute n env x) as [x1|] eqn:Hx; [|discriminate].
    injection H as <-. destruct m as [|m]; [discriminate|]. simpl in H'.
    destruct (Env.substitute m env' x1) as [x2|] eqn:Hx'; [|discriminate].
    injection H' as <-. simpl.
    rewrite (substitute_mono (n + m) (n + S m) env' x x2); [done|lia|].
    by eapply IH.
  - destruct (Env.substitute n env h) as [h1|] eqn:Hh; [|discriminate].
    destruct (Env.substitute n env tl) as [t1|] eqn:Ht; [|discriminate].
    injection H as <-. destruct m as [|m]; [discriminate|]. simpl in H'.
    destruct (Env.substitute m env' h1) as [h2|] eqn:Hh'; [|discriminate].
    destruct (Env.substitute m env' t1) as [t2|] eqn:Ht'; [|discriminate].
    injection H' as <-. simpl.
    rewrite (substitute_mono (n + m) (n + S m) env' h h2); [|lia|by eapply IH].
    rewrite (substitute_mono (n + m) (n + S m) env' tl t2); [done|lia|].
    by eapply IH.
Qed.

(** If [substitute] returns under an extension, it returns under the
    smaller environment too. *)
Lemma substitute_restrict m env env' t r' :
  extends env env' →
  Env.substitute m env' t = Some r' →
  ∃ r, Env.substitute m env t = Some r.
Proof.
  intros Hext. revert t r'.
  induction m as [|m IH]; intros t r' H'; [discriminate|].
  destruct t as [v|a|f x|h tl]; simpl in H' |- *.
  - destruct (Env.tryFind env v) as [b|] eqn:Hv; [|by eauto].
    rewrite (Hext _ _ Hv) in H'. by eapply IH.
  - by eauto.
  - destruct (Env.substitute m env' x) as [x2|] eqn:Hx'; [|discriminate].
    destruct (IH _ _ Hx') as [x1 ->]. by eauto.
  - destruct (Env.substitute m env' h) as [h2|] eqn:Hh'; [|discriminate].
    destruct (Env.substitute m env' tl) as [t2|] eqn:Ht'; [|discriminate].
    destruct (IH _ _ Hh') as [h1 ->]. destruct (IH _ _ Ht') as [t1 ->].
    by eauto.
Qed.

Lemma substitutes_extends env env' t r r' :
  extends env env' → substitutes env t r →
  substitutes env' t r' ↔ substitutes env' r r'.
Proof.
  intros Hext [n Hn]. split; intros [m Hm].
  - exists m. by eapply substitute_extends_fwd.
  - exists (n + m)%nat. by eapply substitute_extends_bwd.
Qed.

Lemma substitutes_restrict env env' t r' :
  extends env env' → substitutes env' t r' → ∃ r, substitutes env t r.
Proof.
  intros Hext [m Hm]. destruct (substitute_restrict _ _ _ _ _ Hext Hm) as [r Hr].
  exists r. by exists m.
Qed.

Lemma substitutes_var_bound env v b r :
  Env.tryFind env v = Some b →
  substitutes env (VarTerm v) r ↔ substitutes env b r.
Proof.
  intros Hv. split; intros [n Hn].
  - destruct n as [|n]; [discriminate|]. simpl in Hn. rewrite Hv in Hn.
    by exists n.
  - exists (S n). simpl. by rewrite Hv.
Qed.

Lemma substitutes_var_unbound env v r :
  Env.tryFind env v = None →
  substitutes env (VarTerm v) r ↔ r = VarTerm v.
Proof.
  intros Hv. split.
  - intros [n Hn]. destruct n as [|n]; [discriminate|]. simpl in Hn.
    rewrite Hv in Hn. congruence.
  - intros ->. exists 1%nat. simpl. by rewrite Hv.
Qed.

Lemma substitutes_app env f x r :
  substitutes env (AppTerm f x) r ↔
  ∃ x', r = AppTerm f x' ∧ substitutes env x x'.
Proof.
  split.
  - intros [n Hn]. destruct n as [|n]; [discriminate|]. simpl in Hn.
    destruct (Env.substitute n env x) as [x'|] eqn:Hx; [|discriminate].
    injection Hn as <-. exists x'. split; [done|by exists n].
  - intros (x' & -> & [n Hn]). exists (S n). simpl. by rewrite Hn.
Qed.

Lemma substitutes_cons env h tl r :
  substitutes env (ConsTerm h tl) r ↔
  ∃ h' t', r = ConsTerm h' t' ∧ substitutes env h h' ∧ substitutes env tl t'.
Proof.
  split.
  - intros [n Hn]. destruct n as [|n]; [discriminate|]. simpl in Hn.
    destruct (Env.substitute n env h) as [h'|] eqn:Hh; [|discriminate].
    destruct (Env.substitute n env tl) as [t'|] eqn:Ht; [|discriminate].
    injection Hn as <-. exists h', t'. split; [done|]. split; by exists n.
  - intros (h' & t' & -> & [n Hn] & [m Hm]). exists (S (n `max` m)). simpl.
    rewrite (substitute_mono n (n `max` m) env h h'); [|lia|done].
    rewrite (substitute_mono m (n `max` m) env tl t'); [done|lia|done].
Qed.

(** ** Binding *)

Lemma bind_inv n env v t env' :
  Env.bind n env v t = Some env' →
  ∃ s, Env.substitute n env t = Some s ∧
       ((s = VarTerm v ∧ env' = env) ∨
        (s ≠ VarTerm v ∧ env' = Env.insert env v s)).
Proof.
  unfold Env.bind. intros H.
  destruct (Env.substitute n env t) as [s|]; [|discriminate].
  exists s. split; [done|].
  destruct (Env.isVar s v) eqn:Hs.
  - left. apply isVar_spec in Hs. by injection H as <-.
  - right. injection H as <-. split; [|done].
    intros Heq. apply isVar_spec in Heq. congruence.
Qed.

Lemma bind_other n env v w t env' :
  Env.bind n env v t = Some env' → w ≠ v →
  Env.tryFind env' w = Env.tryFind env w.
Proof.
  intros H Hne. apply bind_inv in H as (s & _ & [[_ ->]|[_ ->]]); [done|].
  by apply tryFind_insert_ne.
Qed.

Lemma bind_extends n env v t env' :
  Env.tryFind env v = None → Env.bind n env v t = Some env' →
  extends env env'.
Proof.
  intros Hv H. apply bind_inv in H as (s & _ & [[_ ->]|[_ ->]]).
  - apply extends_refl.
  - by apply extends_insert.
Qed.

(** ** Unification *)

Lemma tryUnifyVar_extends unify n env v t env' :
  unify_extends unify →
  Env.tryUnifyVar unify n env v t = Some (Some env') → extends env env'.
Proof.
  intros IH. unfold Env.tryUnifyVar.
  destruct (Env.tryFind env v) as [b|] eqn:Hv.
  - destruct (Env.substitute n env b) as [s|]; [|discriminate]. apply IH.
  - destruct (Env.bind n env v t) as [e|] eqn:Hb; [|discriminate].
    intros [= <-]. by eapply bind_extends.
Qed.

Lemma tryUnify_extends fuel : unify_extends (Env.tryUnify fuel).
Proof.
  induction fuel as [|n IH]; intros env a b env' H; [discriminate|].
  destruct a as [v|a|f x|h1 t1], b as [w|b|g y|h2 t2]; simpl in H;
    try discriminate; try (by eapply tryUnifyVar_extends).
  - destruct (String.eqb a b); [|discriminate]. injection H as <-.
    apply extends_refl.
  - destruct (String.eqb f g); [|discriminate]. by eapply IH.
  - destruct (Env.tryUnify n env h1 h2) as [[env2|]|] eqn:Hh; try discriminate.
    eapply extends_trans; by eapply IH.
Qed.

Lemma tryUnifyVar_agrees unify n env v t env' :
  unify_extends unify → unify_agrees unify →
  Env.tryUnifyVar unify n env v t = Some (Some env') →
  ∀ r, substitutes env' (VarTerm v) r ↔ substitutes env' t r.
Proof.
  intros Hext IH H r. unfold Env.tryUnifyVar in H.
  destruct (Env.tryFind env v) as [b|] eqn:Hv.
  - destruct (Env.substitute n env b) as [s|] eqn:Hs; [|discriminate].
    pose proof (Hext _ _ _ _ H) as He.
    rewrite (substitutes_var_bound env' v b r (He _ _ Hv)).
    rewrite (IH _ _ _ _ H r).
    apply substitutes_extends with env; [done|by exists n].
  - destruct (Env.bind n env v t) as [e|] eqn:Hb; [|discriminate].
    injection H as ->.
    apply bind_inv in Hb as (s & Hs & [[-> ->]|[Hne ->]]).
    + rewrite substitutes_var_unbound by done. split.
      * intros ->. by exists n.
      * intros Hr. eapply substitutes_det; [done|]. by exists n.
    + rewrite (substitutes_var_bound _ v s r (tryFind_insert_eq env v s)).
      symmetry. apply substitutes_extends with env; [|by exists n].
      by apply extends_insert.
Qed.

Lemma tryUnify_agrees fuel : unify_agrees (Env.tryUnify fuel).
Proof.
  induction fuel as [|n IH]; intros env a b env' H r; [discriminate|].
  pose proof (tryUnify_extends n) as Hext.
  destruct a as [v|a|f x|h1 t1], b as [w|b|g y|h2 t2]; simpl in H;
    try discriminate;
    try (by eapply tryUnifyVar_agrees);
    try (symmetry; by eapply tryUnifyVar_agrees).
  - destruct (String.eqb a b) eqn:Hab; [|discriminate].
    apply String.eqb_eq in Hab as ->. done.
  - destruct (String.eqb f g) eqn:Hfg; [|discriminate].
    apply String.eqb_eq in Hfg as ->.
    rewrite !substitutes_app. by setoid_rewrite (IH _ _ _ _ H).
  - destruct (Env.tryUnify n env h1 h2) as [[env2|]|] eqn:Hh; try discriminate.
    pose proof (Hext _ _ _ _ H) as He.
    assert (∀ r1, substitutes env' h1 r1 ↔ substitutes env' h2 r1) as Hheads.
    { intros r1. split; intros Hr.
      - destruct (substitutes_restrict _ _ _ _ He Hr) as [s Hs].
        apply (substitutes_extends _ _ _ _ r1 He Hs) in Hr.
        apply (IH _ _ _ _ Hh s) in Hs.
        by apply (substitutes_extends _ _ _ _ r1 He Hs).
      - destruct (substitutes_restrict _ _ _ _ He Hr) as [s Hs].
        apply (substitutes_extends _ _ _ _ r1 He Hs) in Hr.
        apply (IH _ _ _ _ Hh s) in Hs.
        by apply (substitutes_extends _ _ _ _ r1 He Hs). }
    rewrite !substitutes_cons.
    setoid_rewrite Hheads. by setoid_rewrite (IH _ _ _ _ H).
Qed.

(** ** Environments built by [bind] *)

Lemma tc_last {A} (R : relation A) x z : tc R x z → ∃ y, rtc R x y ∧ R y z.
Proof.
  induction 1 as [x z H|x y z H _ (y' & Hy & Hz)].
  - exists x. split; [apply rtc_refl|done].
  - exists y'. split; [by eapply rtc_l|done].
Qed.

Lemma Acc_no_cycle {A} (R : relation A) x : Acc R x → ¬ tc R x x.
Proof.
  induction 1 as [x _ IH]. intros Hc.
  destruct (tc_last R x x Hc) as (y & Hxy & Hyx).
  apply (IH y Hyx). eapply tc_rtc_r; [by apply tc_once|done].
Qed.

Lemma link_acc_default v : Acc (link Env.default) v.
Proof. constructor. intros w Hw. unfold link in Hw. by rewrite tryFind_default in Hw. Qed.

Lemma link_acc_bind n env v0 t env' :
  Env.bind n env v0 t = Some env' →
  (∀ v, Acc (link env) v) → ∀ v, Acc (link env') v.
Proof.
  intros Hb Hacc.
  apply bind_inv in Hb as (s & Hs & [[_ ->]|[Hne ->]]); [done|].
  intros v. induction (Hacc v) as [v _ IH].
  constructor. intros w Hw. unfold link in Hw.
  destruct (decide (v = v0)) as [->|Hv].
  - rewrite tryFind_insert_eq in Hw. injection Hw as ->.
    assert (Env.tryFind env w = None) as Hunb.
    { eapply substitute_vars_unbound; [done|]. simpl. by apply list_elem_of_singleton. }
    assert (w ≠ v0) as Hw0 by congruence.
    constructor. intros u Hu. unfold link in Hu.
    rewrite tryFind_insert_ne in Hu by done. congruence.
  - rewrite tryFind_insert_ne in Hw by done. by apply IH.
Qed.

Lemma reachable_link_acc env : reachable env → ∀ v, Acc (link env) v.
Proof.
  induction 1 as [|n env v0 t env' _ IH Hb].
  - apply link_acc_default.
  - by eapply link_acc_bind.
Qed.

Lemma derefs_exists env v : Acc (link env) v → ∃ k t, derefs env v k t.
Proof.
  induction 1 as [v _ IH].
  destruct (Env.tryFind env v) as [[w| a | f x | h tl]|] eqn:Hv.
  - destruct (IH w Hv) as (k & t & Hk). exists (S k), t. by eapply derefs_link.
  - exists 1%nat, (AtomTerm a). by apply derefs_nonvar.
  - exists 1%nat, (AppTerm f x). by apply derefs_nonvar.
  - exists 1%nat, (ConsTerm h tl). by apply derefs_nonvar.
  - exists 0%nat, (VarTerm v). by apply derefs_unbound.
Qed.

(** [substitute] walks a chain with one call per binding found. *)
Lemma derefs_substitute env v k t :
  derefs env v k t →
  ∀ n, Env.substitute (k + n) env (VarTerm v) = Env.substitute n env t.
Proof.
  induction 1 as [v Hv|v t Hv Ht|v w k t Hv _ IH]; intros n.
  - done.
  - simpl. by rewrite Hv.
  - simpl. rewrite Hv. apply IH.
Qed.

Lemma derefs_end env v k t :
  derefs env v k t →
  (∃ w, t = VarTerm w ∧ Env.tryFind env w = None) ∨ (∀ w, t ≠ VarTerm w).
Proof.
  induction 1 as [v Hv|v t Hv Ht|v w k t Hv _ IH]; eauto.
Qed.

End EnvFacts.

(** * The claims about the environment *)

(** A cyclic environment: unifying [X] with [f(X)] binds [X] to [f(X)]. *)
Lemma substitute_cyclic_diverges n :
  Env.substitute n cyclicEnv (VarTerm varX) = None ∧
  Env.substitute n cyclicEnv (AppTerm "f" (VarTerm varX)) = None.
Proof.
  induction n as [|n [IHv IHa]]; [done|]. split.
  - change (Env.substitute (S n) cyclicEnv (VarTerm varX))
      with (Env.substitute n cyclicEnv (AppTerm "f" (VarTerm varX))).
    exact IHa.
  - simpl. by rewrite IHv.
Qed.

Lemma cyclicEnv_reachable : reachable cyclicEnv.
Proof.
  apply (reachable_bind 2 Env.default varX (AppTerm "f" (VarTerm varX)));
    [apply reachable_default | reflexivity].
Qed.

(** C1, as stated, fails: unifying [X] with [f(X)] in the empty environment
    returns an environment under which [substitute] returns on neither
    term, so the two substitutions are not equal terms. *)
Lemma tryUnify_sound_counterexample :
  Env.tryUnify 3 Env.default (VarTerm varX) (AppTerm "f" (VarTerm varX))
    = Some (Some cyclicEnv) ∧
  (∀ n, Env.substitute n cyclicEnv (VarTerm varX) = None) ∧
  (∀ n, Env.substitute n cyclicEnv (AppTerm "f" (VarTerm varX)) = None).
Proof.
  split; [reflexivity|]. split; intros n; apply substitute_cyclic_diverges.
Qed.

(** C1, amended (unification soundness): if [tryUnify env a b] returns
    [env'], then [substitute env' a] returns a term exactly when
    [substitute env' b] does, and then both return the same term. *)
Theorem tryUnify_sound fuel (env0 : Env) (a b : Term) (env' : Env) :
  Env.tryUnify fuel env0 a b = Some (Some env') →
  ∀ r, substitutes env' a r ↔ substitutes env' b r.
Proof. apply tryUnify_agrees. Qed.

Lemma tryUnify_sound_witness :
  Env.tryUnify 5 Env.default listXPlato listSocratesY = Some (Some listEnv) ∧
  ∀ r, substitutes listEnv listXPlato r ↔ substitutes listEnv listSocratesY r.
Proof.
  split; [reflexivity|].
  apply (tryUnify_sound 5 Env.default listXPlato listSocratesY listEnv).
  reflexivity.
Defined.

(** C6 (unification monotonicity): when [tryUnify env a b] returns [env'],
    every variable bound in [env] has the same binding in [env']. *)
Theorem tryUnify_monotone fuel (env0 : Env) (a b : Term) (env' : Env) :
  Env.tryUnify fuel env0 a b = Some (Some env') →
  ∀ v, is_Some (Env.tryFind env0 v) → Env.tryFind env' v = Env.tryFind env0 v.
Proof.
  intros H v [t Ht]. rewrite Ht. by apply (tryUnify_extends fuel _ _ _ _ H).
Qed.

Lemma tryUnify_monotone_witness :
  Env.tryUnify 5 xSocratesEnv listXPlato listSocratesY = Some (Some listEnv) ∧
  Env.tryFind listEnv varX = Env.tryFind xSocratesEnv varX.
Proof.
  split; [reflexivity|].
  apply (tryUnify_monotone 5 xSocratesEnv listXPlato listSocratesY listEnv).
  - reflexivity.
  - exists (AtomTerm "socrates"). reflexivity.
Defined.

(** C9 (binding is local to one slot): [bind env v t] leaves the binding
    of every variable that differs from [v] in its name or in its id as it
    was in [env]; it returns [env] itself or changes the one entry of [v],
    to the substituted term. *)
Theorem bind_frame fuel (env0 : Env) (v : Var) (t : Term) (env' : Env) :
  Env.bind fuel env0 v t = Some env' →
  (∀ w, varName w ≠ varName v ∨ varId w ≠ varId v →
        Env.tryFind env' w = Env.tryFind env0 w) ∧
  (env' = env0 ∨
   ∃ s, Env.substitute fuel env0 t = Some s ∧ Env.tryFind env' v = Some s).
Proof.
  intros H. split.
  - intros w Hw. apply (bind_other fuel env0 v w t env' H).
    intros ->. by destruct Hw.
  - apply bind_inv in H as (s & Hs & [[_ ->]|[_ ->]]); [by left|].
    right. exists s. split; [done|apply tryFind_insert_eq].
Qed.

Lemma bind_frame_witness :
  Env.bind 1 xSocratesEnv {| varId := 7; varName := "x" |} (AtomTerm "plato")
    = Some (Env.insert xSocratesEnv {| varId := 7; varName := "x" |} (AtomTerm "plato")) ∧
  Env.tryFind (Env.insert xSocratesEnv {| varId := 7; varName := "x" |} (AtomTerm "plato")) varX
    = Env.tryFind xSocratesEnv varX.
Proof.
  split; [reflexivity|].
  apply (bind_frame 1 xSocratesEnv {| varId := 7; varName := "x" |} (AtomTerm "plato")).
  - reflexivity.
  - right. simpl. lia.
Defined.

(** C5, as stated, fails: the environment that binds [X] to [f(X)] is
    built by one [bind] from the empty environment, and [substitute] does
    not return on [X] under it, whatever the recursion bound. *)
Lemma substitute_idempotent_counterexample :
  Env.bind 2 Env.default varX (AppTerm "f" (VarTerm varX)) = Some cyclicEnv ∧
  reachable cyclicEnv ∧
  ¬ ∃ r, substitutes cyclicEnv (VarTerm varX) r.
Proof.
  split; [reflexivity|]. split; [apply cyclicEnv_reachable|].
  intros (r & n & Hn). by rewrite (proj1 (substitute_cyclic_diverges n)) in Hn.
Qed.

(** C5, amended (substitution idempotence): in every environment, whenever
    [substitute env t] returns a term [r], [substitute env r] returns [r]
    again. *)
Theorem substitute_idempotent fuel (env0 : Env) (t r : Term) :
  Env.substitute fuel env0 t = Some r →
  Env.substitute fuel env0 r = Some r.
Proof. apply substitute_fixed. Qed.

Lemma substitute_idempotent_witness :
  Env.substitute 4 listEnv listXPlato = Some listSocratesPlato ∧
  Env.substitute 4 listEnv listSocratesPlato = Some listSocratesPlato.
Proof.
  split; [reflexivity|].
  apply (substitute_idempotent 4 listEnv listXPlato listSocratesPlato).
  reflexivity.
Defined.

(** C4, as stated, fails: the environment that binds [X] to [f(X)] is
    built by one [bind] from the empty environment; the chain of bindings
    from [X] has one link and ends at [f(X)], a term that is not a
    variable; and [substitute] does not return on [X], whatever the
    recursion bound. *)
Lemma bind_no_cycle_counterexample :
  Env.bind 2 Env.default varX (AppTerm "f" (VarTerm varX)) = Some cyclicEnv ∧
  reachable cyclicEnv ∧
  derefs cyclicEnv varX 1 (AppTerm "f" (VarTerm varX)) ∧
  ∀ n, Env.substitute n cyclicEnv (VarTerm varX) = None.
Proof.
  split; [reflexivity|]. split; [apply cyclicEnv_reachable|]. split.
  - apply derefs_nonvar; [reflexivity|discriminate].
  - intros n. apply substitute_cyclic_diverges.
Qed.

(** C4, amended (no self-binding, dereference termination): [bind] leaves the
    environment as it is when the substituted term is the variable itself;
    in an environment built by [bind] from the empty one no variable is
    bound to itself, the variable-to-variable bindings have no cycle and no
    infinite chain, and from every variable a finite number [k] of links
    leads to an unbound variable or a term that is not a variable, a chain
    that [substitute] walks in [k] calls; it returns the end of the chain
    when that is an unbound variable or an atom. *)
Theorem bind_no_cycle (env0 : Env) :
  reachable env0 →
  (∀ n v t env', Env.bind n env0 v t = Some env' →
                 Env.substitute n env0 t = Some (VarTerm v) → env' = env0) ∧
  (∀ v, Env.tryFind env0 v ≠ Some (VarTerm v)) ∧
  (∀ v, ¬ tc (link env0) v v) ∧
  (∀ v, Acc (link env0) v) ∧
  (∀ v, ∃ k t,
      derefs env0 v k t ∧
      (∀ n, Env.substitute (k + n) env0 (VarTerm v) = Env.substitute n env0 t) ∧
      ((∃ w, t = VarTerm w) ∨ (∃ a, t = AtomTerm a) →
       Env.substitute (k + 1) env0 (VarTerm v) = Some t)).
Proof.
  intros Hr. pose proof (reachable_link_acc env0 Hr) as Hacc.
  split; [|split; [|split; [|split]]].
  - intros n v t env' Hb Hs. unfold Env.bind in Hb. rewrite Hs in Hb.
    assert (Env.isVar (VarTerm v) v = true) as Hv by by apply isVar_spec.
    rewrite Hv in Hb. by injection Hb.
  - intros v Hv. apply (Acc_no_cycle _ v (Hacc v)). by apply tc_once.
  - intros v. by apply Acc_no_cycle.
  - done.
  - intros v. destruct (derefs_exists env0 v (Hacc v)) as (k & t & Hk).
    exists k, t. split; [done|]. split; [by apply derefs_substitute|].
    intros Hshape. rewrite (derefs_substitute _ _ _ _ Hk 1%nat).
    destruct Hshape as [[w ->]|[a ->]]; [|done].
    destruct (derefs_end _ _ _ _ Hk) as [(w' & [= <-] & Hw)|Hnv].
    + simpl. by rewrite Hw.
    + by destruct (Hnv w).
Qed.

Lemma chainEnv_reachable : reachable chainEnv.
Proof.
  apply (reachable_bind 1 (Env.insert Env.default varX (VarTerm varY)) varY xSocrates);
    [|reflexivity].
  apply (reachable_bind 1 Env.default varX (VarTerm varY));
    [apply reachable_default | reflexivity].
Defined.

Lemma bind_no_cycle_witness :
  reachable chainEnv ∧
  (∀ v, Env.tryFind chainEnv v ≠ Some (VarTerm v)) ∧
  (∀ v, ¬ tc (link chainEnv) v v).
Proof.
  split; [exact chainEnv_reachable|].
  destruct (bind_no_cycle chainEnv chainEnv_reachable) as (_ & Hself & Hcyc & _).
  split; [exact Hself | exact Hcyc].
Defined.

(** * Properties of the prover *)

Section ProverFacts.

Implicit Types (results lefts rights : Gen ProveResult).
Implicit Types (proveGoal : Prop_ → Env → Z → Gen ProveResult).

Lemma goalLoop_no_cut results (nextRule : Z → Gen ProveResult) :
  (∀ c, allYields (fun r => cut r = false) (nextRule c)) →
  allYields (fun r => cut r = false) (goalLoop results nextRule).
Proof.
  intros Hnext. induction results as [c|r c resume IH|]; simpl; [done| |done].
  split; [done|]. intros c'. destruct (cut r); [done|apply IH].
Qed.

Lemma ruleLoop_no_cut proveGoal fuel prop env0 rules count :
  allYields (fun r => cut r = false)
            (ruleLoop proveGoal fuel prop env0 rules count).
Proof.
  revert count. induction rules as [|rule rest IH]; intros count; simpl; [done|].
  destruct (Env.tryUnify _ _ _ _) as [[env2|]|]; [|apply IH|done].
  destruct (goal rule) as [g|]; simpl.
  - by apply goalLoop_no_cut.
  - done.
Qed.

Lemma toList_goalLoop results (nextRule : Z → Gen ProveResult) :
  toList (goalLoop results nextRule) =
  match untilCut results with
  | None => None
  | Some (l1, c1, true) => Some (map clearCut l1, c1)
  | Some (l1, c1, false) =>
    match toList (nextRule c1) with
    | Some (l2, c2) => Some (map clearCut l1 ++ l2, c2)
    | None => None
    end
  end.
Proof.
  induction results as [c|r c resume IH|]; simpl; [|destruct (cut r) eqn:Hcut|done].
  - by destruct (toList (nextRule c)) as [[l2 c2]|].
  - done.
  - rewrite IH. destruct (untilCut (resume c)) as [[[l1 c1] [|]]|]; [done| |done].
    by destruct (toList (nextRule c1)) as [[l2 c2]|].
Qed.

Lemma toList_ruleLoop proveGoal fuel prop env0 rules count :
  toList (ruleLoop proveGoal fuel prop env0 rules count)
  = withoutMark <$> enumerate proveGoal fuel prop env0 rules count.
Proof.
  revert count. induction rules as [|rule rest IH]; intros count; simpl; [done|].
  destruct (Env.tryUnify _ _ _ _) as [[env1|]|]; [|apply IH|done].
  destruct (goal rule) as [g|]; simpl.
  - rewrite toList_goalLoop.
    destruct (untilCut _) as [[[l1 c1] [|]]|]; [done| |done].
    rewrite IH. by destruct (enumerate _ _ _ _ rest c1) as [[[l2 c2] s]|].
  - rewrite IH. by destruct (enumerate _ _ _ _ rest _) as [[[l2 c2] s]|].
Qed.

Lemma enumerate_app proveGoal fuel prop env0 rules1 rules2 count :
  enumerate proveGoal fuel prop env0 (rules1 ++ rules2) count =
  match enumerate proveGoal fuel prop env0 rules1 count with
  | None => None
  | Some (l1, c1, true) => Some (l1, c1, true)
  | Some (l1, c1, false) =>
    match enumerate proveGoal fuel prop env0 rules2 c1 with
    | Some (l2, c2, stopped) => Some (l1 ++ l2, c2, stopped)
    | None => None
    end
  end.
Proof.
  revert count. induction rules1 as [|rule rest IH]; intros count; simpl.
  - by destruct (enumerate _ _ _ _ rules2 count) as [[[l2 c2] s]|].
  - destruct (Env.tryUnify _ _ _ _) as [[env1|]|]; [|apply IH|done].
    destruct (goal rule) as [g|].
    + destruct (untilCut _) as [[[l1 c1] [|]]|]; [done| |done].
      rewrite IH. destruct (enumerate _ _ _ _ rest c1) as [[[l c] [|]]|]; [done| |done].
      destruct (enumerate _ _ _ _ rules2 c) as [[[l2 c2] s]|]; [|done].
      by rewrite app_assoc.
    + rewrite IH. destruct (enumerate _ _ _ _ rest _) as [[[l c] [|]]|]; [done| |done].
      by destruct (enumerate _ _ _ _ rules2 c) as [[[l2 c2] s]|].
Qed.

Lemma toList_rightLoop cut2 rights (nextLeft : Z → Gen ProveResult) :
  toList (rightLoop cut2 rights nextLeft) =
  match toList rights with
  | None => None
  | Some (l1, c1) =>
    match toList (nextLeft c1) with
    | None => None
    | Some (l2, c2) => Some (map (withCut cut2) l1 ++ l2, c2)
    end
  end.
Proof.
  induction rights as [c|r c resume IH|]; simpl; [|rewrite IH|done].
  - by destruct (toList (nextLeft c)) as [[l2 c2]|].
  - destruct (toList (resume c)) as [[l1 c1]|]; [|done].
    by destruct (toList (nextLeft c1)) as [[l2 c2]|].
Qed.

Lemma toList_leftLoop lefts (proveRight : Env → Z → Gen ProveResult) :
  toList (leftLoop lefts proveRight) = enumerateConj lefts proveRight.
Proof.
  induction lefts as [c|r c resume IH|]; simpl; [done| |done].
  rewrite toList_rightLoop.
  destruct (toList (proveRight (env r) c)) as [[l1 c1]|]; [|done].
  by rewrite IH.
Qed.

Lemma toList_reyield {A} (gen : Gen A) : toList (reyield gen) = toList gen.
Proof.
  induction gen as [c|a c resume IH|]; simpl; [done| |done]. by rewrite IH.
Qed.

End ProverFacts.

(** ** Properties of the query driver *)

Section QueryFacts.

Lemma withVarId_names t id :
  map varName (Term.vars (Term.withVarId t id)) = map varName (Term.vars t).
Proof.
  induction t as [v|a|f x IH|h IHh tl IHt]; simpl; [done|done|done|].
  by rewrite !map_app, IHh, IHt.
Qed.

Lemma withVarId_ids t id :
  Forall (fun v => varId v = id) (Term.vars (Term.withVarId t id)).
Proof.
  induction t as [v|a|f x IH|h IHh tl IHt]; simpl; [by repeat constructor|done|done|].
  by apply Forall_app.
Qed.

Lemma prop_withVarId_names prop id :
  map varName (Prop_.vars (Prop_.withVarId prop id)) = map varName (Prop_.vars prop).
Proof.
  induction prop as [p|l IHl r IHr]; simpl; [apply withVarId_names|].
  by rewrite !map_app, IHl, IHr.
Qed.

Lemma prop_withVarId_ids prop id :
  Forall (fun v => varId v = id) (Prop_.vars (Prop_.withVarId prop id)).
Proof.
  induction prop as [p|l IHl r IHr]; simpl; [apply withVarId_ids|].
  by apply Forall_app.
Qed.

(** A variable that [substitute] returns is unbound, so the second half
    of the test for [unbound] in [query] always holds. *)
Lemma assignment_cases fuel (env0 : Env) v :
  assignment fuel env0 v =
  match Env.substitute fuel env0 (VarTerm v) with
  | None => None
  | Some (VarTerm _) => Some (Unbound (varName v))
  | Some t => Some (Bound (varName v) t)
  end.
Proof.
  unfold assignment.
  destruct (Env.substitute fuel env0 (VarTerm v)) as [[w|a|f x|h tl]|] eqn:Hs;
    try done.
  rewrite (substitute_vars_unbound _ _ _ _ Hs w); [done|].
  simpl. by apply list_elem_of_singleton.
Qed.

End QueryFacts.
(** ** The scenarios, for every state of the id counter *)

Lemma isVar_ne s v : s ≠ VarTerm v → Env.isVar s v = false.
Proof.
  intros Hne. destruct (Env.isVar s v) eqn:H; [|done].
  by apply isVar_spec in H.
Qed.

(** Unifying an unbound variable with a term binds it to what the term
    stands for, unless that is the variable itself. *)
Lemma tryUnify_unbound n (env0 : Env) v t s :
  Env.tryFind env0 v = None →
  Env.substitute n env0 t = Some s → s ≠ VarTerm v →
  Env.tryUnify (S n) env0 (VarTerm v) t = Some (Some (Env.insert env0 v s)).
Proof.
  intros Hv Hs Hne. simpl. unfold Env.tryUnifyVar, Env.bind.
  by rewrite Hv, Hs, isVar_ne.
Qed.

Lemma distinct_singleton v : distinct [v] = [v].
Proof.
  unfold distinct. cbn [distinctFrom].
  case_bool_decide as H; [by apply elem_of_nil in H|done].
Qed.

Ltac var_ne := let H := fresh in intros H; inversion H; lia.

Ltac find_step :=
  repeat first
    [ rewrite tryFind_insert_eq
    | rewrite tryFind_insert_ne by var_ne
    | rewrite tryFind_default ].


Lemma rules_mortal : Knowledge.rules syllogism "mortal" = Some [major].
Proof. reflexivity. Qed.

Lemma rules_human : Knowledge.rules syllogism "human" = Some [minor; platoRule].
Proof. reflexivity. Qed.


Lemma query_mortal n count :
  toList (query (4 + n) (Atomic (mortal (free "x"))) Env.default syllogism count)
  = Some ([[Bound "x" xSocrates]; [Bound "x" xPlato]], count + 1 + 1 + 1 + 1).
Proof.
  unfold query, proveCore.
  change (4 + n)%nat with (S (S (S (S n)))).
  cbn [Prop_.refresh nextVarId Prop_.withVarId Prop_.vars Term.vars
       Term.withVarId mortal free pred term varName varId].
  rewrite distinct_singleton.
  cbn [proveProp]. unfold provePredWith at 1.
  cbn [pred term CutProp TrueProp String.eqb Ascii.eqb Bool.eqb andb isNil].
  rewrite rules_mortal.
  cbn [ruleLoop Rule.refresh nextVarId major mortal human free head goal pred term
       Prop_.withVarId Term.withVarId varName varId].
  rewrite (tryUnify_unbound _ _ _ _ (VarTerm {| varId := count + 1 + 1; varName := "x" |}));
    [|done|done|var_ne].
  cbn [proveProp]. unfold provePredWith.
  cbn [pred term CutProp TrueProp String.eqb Ascii.eqb Bool.eqb andb isNil].
  rewrite rules_human.
  cbn [ruleLoop Rule.refresh nextVarId minor platoRule fact head goal pred term
       Term.withVarId xSocrates xPlato].
  rewrite (tryUnify_unbound _ _ _ _ (AtomTerm "socrates")); [|by find_step|done|done].
  rewrite (tryUnify_unbound _ _ _ _ (AtomTerm "plato")); [|by find_step|done|done].
  cbn [reyield goalLoop envsOf solutionsOf env cut solution].
  rewrite !assignment_cases.
  cbn [Env.substitute]. find_step.
  cbn [Env.substitute]. find_step.
  cbn [Env.substitute]. find_step. reflexivity.
Qed.
(** ** Terms without variables *)

Lemma vars_cons_nil h tl :
  Term.vars (ConsTerm h tl) = [] → Term.vars h = [] ∧ Term.vars tl = [].
Proof. simpl. apply app_eq_nil. Qed.

Lemma tryUnify_ground_eq (env0 : Env) (a b : Term) (n : nat) :
  Term.vars a = [] → Term.vars b = [] → (termDepth a < n)%nat →
  Env.tryUnify n env0 a b = Some (if decide (a = b) then Some env0 else None).
Proof.
  revert b n. induction a as [v|s|f x IH|h1 IHh t1 IHt]; intros b n Ha Hb Hn;
    (destruct n as [|n]; [lia|]); simpl in Hn.
  - discriminate Ha.
  - destruct b as [w|s'|g y|h2 t2]; [discriminate Hb| | |]; cbn [Env.tryUnify].
    + destruct (String.eqb_spec s s') as [->|Hne].
      * by rewrite decide_True.
      * rewrite decide_False; [done|congruence].
    + by rewrite decide_False.
    + by rewrite decide_False.
  - destruct b as [w|s'|g y|h2 t2]; [discriminate Hb| | |]; cbn [Env.tryUnify].
    + by rewrite decide_False.
    + destruct (String.eqb_spec f g) as [->|Hne].
      * rewrite (IH y n Ha Hb) by lia.
        destruct (decide (x = y)) as [->|Hxy].
        -- by rewrite decide_True.
        -- rewrite decide_False; [done|congruence].
      * rewrite decide_False; [done|congruence].
    + by rewrite decide_False.
  - destruct b as [w|s'|g y|h2 t2]; [discriminate Hb| | |]; cbn [Env.tryUnify].
    + by rewrite decide_False.
    + by rewrite decide_False.
    + apply vars_cons_nil in Ha as [Hah Hat].
      apply vars_cons_nil in Hb as [Hbh Hbt].
      rewrite (IHh h2 n Hah Hbh) by lia.
      destruct (decide (h1 = h2)) as [->|Hh].
      * rewrite (IHt t2 n Hat Hbt) by lia.
        destruct (decide (t1 = t2)) as [->|Ht].
        -- by rewrite decide_True.
        -- rewrite decide_False; [done|congruence].
      * rewrite decide_False; [done|congruence].
Qed.

Lemma term_withVarId_ground t id : Term.vars t = [] → Term.withVarId t id = t.
Proof.
  induction t as [v|s|f x IH|h IHh tl IHt]; simpl; [done|done| |].
  - intros H. by rewrite IH.
  - intros [Hh Ht]%app_eq_nil. by rewrite IHh, IHt.
Qed.

Lemma eqb_ne (a b : string) : a ≠ b → String.eqb a b = false.
Proof. intros H. by apply String.eqb_neq. Qed.

(** ** Lookups in the knowledge base *)

Lemma rules_own (k : Knowledge) p rs : k !! p = Some rs → Knowledge.rules k p = Some rs.
Proof. unfold Knowledge.rules. by intros ->. Qed.

Lemma rules_not_inherited (k : Knowledge) p :
  inherited p = false → ∃ old, Knowledge.rules k p = Some old.
Proof.
  intros Hp. unfold Knowledge.rules. destruct (k !! p) as [rs|]; [by eexists|].
  rewrite Hp. by eexists.
Qed.

Lemma assume_inv_some (k : Knowledge) rule k' :
  Knowledge.assume k rule = Some k' →
  ∃ old, Knowledge.rules k (pred (head rule)) = Some old ∧
         k' = <[pred (head rule) := old ++ [rule]]> k.
Proof.
  unfold Knowledge.assume.
  destruct (Knowledge.rules k (pred (head rule))) as [old|]; [|discriminate].
  intros [= <-]. by exists old.
Qed.

Lemma rules_assume_eq (k : Knowledge) rule k' :
  Knowledge.assume k rule = Some k' →
  ∃ old, Knowledge.rules k (pred (head rule)) = Some old ∧
         Knowledge.rules k' (pred (head rule)) = Some (old ++ [rule]).
Proof.
  intros (old & Hold & ->)%assume_inv_some. exists old. split; [done|].
  apply rules_own, lookup_insert_eq.
Qed.

Lemma rules_assume_ne (k : Knowledge) rule k' (p : string) :
  Knowledge.assume k rule = Some k' → p ≠ pred (head rule) →
  Knowledge.rules k' p = Knowledge.rules k p.
Proof.
  intros (old & Hold & ->)%assume_inv_some Hp. unfold Knowledge.rules.
  by rewrite lookup_insert_ne.
Qed.

(** * The claims about the prover and the query driver *)

(** C2 (cut prunes alternatives): with [p :- !, q.  p :- r.  q.  r.] the
    query [p] has exactly one solution and draws three ids, one for the
    query, one for the first rule of [p] and one for [q]; the result of
    [p] carries no cut flag; both stay the same whatever rule stands in
    the place of [p :- r.], which therefore is not tried; with [true] in
    the place of the cut the second rule is tried and there are two
    solutions; a caller [s :- p.  s :- r.] of [p] still gets its second
    rule tried after the cut in [p] and has two solutions; and every
    result that the loop over the rules of a predicate yields has the cut
    flag cleared. *)
Theorem cut_prunes_alternatives :
  (∀ n count,
      toList (query (4 + n) (Atomic (nullary "p")) Env.default
                    (cutKnowledge pCutQ pR) count)
      = Some ([[]], count + 1 + 1 + 1)) ∧
  (∀ n count,
      toList (provePred (3 + n) (nullary "p") Env.default
                        (cutKnowledge pCutQ pR) count)
      = Some ([ {| env := Env.default; cut := false |} ], count + 1 + 1)) ∧
  (∀ n count t g,
      toList (provePred (3 + n) (nullary "p") Env.default
                (cutKnowledge pCutQ {| head := {| pred := "p"; term := t |}; goal := g |})
                count)
      = Some ([ {| env := Env.default; cut := false |} ], count + 1 + 1)) ∧
  (∀ n count,
      toList (query (4 + n) (Atomic (nullary "p")) Env.default
                    (cutKnowledge pTrueQ pR) count)
      = Some ([[]; []], count + 1 + 1 + 1 + 1 + 1)) ∧
  (∀ n count,
      toList (query (5 + n) (Atomic (nullary "s")) Env.default callerKnowledge count)
      = Some ([[]; []], count + 1 + 1 + 1 + 1 + 1 + 1)) ∧
  (∀ proveGoal fuel prop env0 rules count,
      allYields (fun r => cut r = false)
                (ruleLoop proveGoal fuel prop env0 rules count)).
Proof.
  split; [|split; [|split; [|split; [|split]]]].
  - intros n count. vm_compute. reflexivity.
  - intros n count. vm_compute. reflexivity.
  - intros n count t g. vm_compute. reflexivity.
  - intros n count. vm_compute. reflexivity.
  - intros n count. vm_compute. reflexivity.
  - apply ruleLoop_no_cut.
Qed.

(** C7 (rule-order determinism): with [mortal(X) :- human(X).],
    [human(socrates).] and then [human(plato).], the query [mortal(X)]
    yields [X = socrates] and then [X = plato] and nothing else.  With two
    rules with bodies, [p(X) :- q(X).  p(X) :- r(X).] over the facts
    [q(a). q(b). r(c). r(d).], the query [p(Y)] yields [a], [b], [c], [d]
    in this order, and the conjunction [q(X), r(Y)] yields the pairs
    [(a, c)], [(a, d)], [(b, c)], [(b, d)].  In general [assume] puts a
    rule behind the rules its predicate already has; the loop of
    [provePred] over the rules yields exactly the enumeration of the spec:
    rules in insertion order, all results found through one rule before
    those of the next, nothing after a result that carried the cut; for
    two lists of rules one after the other this is the enumeration of the
    first, followed, unless a cut stopped it, by that of the second from
    where the first ended; and a conjunction yields, for the results of
    its left conjunct in their order, the results of the right conjunct
    in theirs. *)
Theorem rule_order_determinism :
  (∀ n count,
      toList (query (4 + n) (Atomic (mortal (free "x"))) Env.default syllogism count)
      = Some ([[Bound "x" xSocrates]; [Bound "x" xPlato]], count + 1 + 1 + 1 + 1)) ∧
  (∀ n,
      toList (query (4 + n) (Atomic {| pred := "p"; term := free "y" |})
                    Env.default branching 0)
      = Some ([[Bound "y" (AtomTerm "a")]; [Bound "y" (AtomTerm "b")];
               [Bound "y" (AtomTerm "c")]; [Bound "y" (AtomTerm "d")]], 7)) ∧
  (∀ n,
      toList (query (4 + n)
                (ConjProp (Atomic {| pred := "q"; term := free "x" |})
                          (Atomic {| pred := "r"; term := free "y" |}))
                Env.default branching 0)
      = Some ([[Bound "x" (AtomTerm "a"); Bound "y" (AtomTerm "c")];
               [Bound "x" (AtomTerm "a"); Bound "y" (AtomTerm "d")];
               [Bound "x" (AtomTerm "b"); Bound "y" (AtomTerm "c")];
               [Bound "x" (AtomTerm "b"); Bound "y" (AtomTerm "d")]], 7)) ∧
  (∀ (k : Knowledge) rule k',
      Knowledge.assume k rule = Some k' →
      ∃ old, Knowledge.rules k (pred (head rule)) = Some old ∧
             Knowledge.rules k' (pred (head rule)) = Some (old ++ [rule])) ∧
  (∀ proveGoal fuel prop env0 rules count,
      toList (ruleLoop proveGoal fuel prop env0 rules count)
      = withoutMark <$> enumerate proveGoal fuel prop env0 rules count) ∧
  (∀ proveGoal fuel prop env0 rules1 rules2 count,
      toList (ruleLoop proveGoal fuel prop env0 (rules1 ++ rules2) count) =
      match enumerate proveGoal fuel prop env0 rules1 count with
      | None => None
      | Some (l1, count1, true) => Some (l1, count1)
      | Some (l1, count1, false) =>
        match toList (ruleLoop proveGoal fuel prop env0 rules2 count1) with
        | Some (l2, count2) => Some (l1 ++ l2, count2)
        | None => None
        end
      end) ∧
  (∀ lefts proveRight,
      toList (leftLoop lefts proveRight) = enumerateConj lefts proveRight).
Proof.
  split; [|split; [|split; [|split; [|split; [|split]]]]].
  - apply query_mortal.
  - intros n. vm_compute. reflexivity.
  - intros n. vm_compute. reflexivity.
  - apply rules_assume_eq.
  - apply toList_ruleLoop.
  - intros proveGoal fuel prop env0 rules1 rules2 count.
    rewrite toList_ruleLoop, enumerate_app.
    destruct (enumerate _ _ _ _ rules1 count) as [[[l1 c1] [|]]|];
      [reflexivity| |reflexivity].
    rewrite toList_ruleLoop.
    destruct (enumerate _ _ _ _ rules2 c1) as [[[l2 c2] s]|]; reflexivity.
  - apply toList_leftLoop.
Qed.

Lemma rule_order_determinism_witness :
  Knowledge.assume (Knowledge.returned (Knowledge.assume Knowledge.default minor)) platoRule
    = Some {[ "human" := [minor; platoRule] ]} ∧
  ∃ old,
    Knowledge.rules (Knowledge.returned (Knowledge.assume Knowledge.default minor)) "human"
      = Some old ∧
    Knowledge.rules {[ "human" := [minor; platoRule] ]} "human"
      = Some (old ++ [platoRule]).
Proof.
  split; [reflexivity|].
  destruct rule_order_determinism as (_ & _ & _ & Happend & _).
  apply (Happend (Knowledge.returned (Knowledge.assume Knowledge.default minor))
                 platoRule {[ "human" := [minor; platoRule] ]}).
  reflexivity.
Defined.

Lemma solution_names fuel (env0 : Env) vs s :
  solution fuel env0 vs = Some s → map assignmentName s = map varName vs.
Proof.
  revert s. induction vs as [|v rest IH]; intros s H; simpl in H.
  - by injection H as <-.
  - rewrite assignment_cases in H.
    destruct (Env.substitute fuel env0 (VarTerm v)) as [t|]; [|discriminate].
    destruct (solution fuel env0 rest) as [s'|]; [|by destruct t].
    specialize (IH s' eq_refl).
    destruct t; injection H as <-; simpl; by rewrite IH.
Qed.

Lemma solutionsOf_names fuel vs (envs : Gen Env) :
  allYields (fun s => map assignmentName s = map varName vs)
            (solutionsOf fuel vs envs).
Proof.
  induction envs as [c|e c resume IH|]; simpl; [done| |done].
  destruct (solution fuel e vs) as [s|] eqn:Hs; [|done]. simpl.
  split; [by eapply solution_names|]. intros c'. apply IH.
Qed.


(** C3, as stated, fails: a rule whose head has the empty predicate name
    is accepted by [Knowledge.assume] and by the facade's [assume]; it is
    stored under the empty name and answers a query for it. *)
Lemma assume_rejects_counterexample :
  pred (head (fact "" nilTerm)) = "" ∧
  Knowledge.assume Knowledge.default (fact "" nilTerm)
    = Some {[ "" := [fact "" nilTerm] ]} ∧
  Knowledge.rules {[ "" := [fact "" nilTerm] ]} "" = Some [fact "" nilTerm] ∧
  ImplProofSystem.assume createProofSystem (fact "" nilTerm)
    = Some {| knowledge := {[ "" := [fact "" nilTerm] ]} |} ∧
  toList (ImplProofSystem.query 2 {| knowledge := {[ "" := [fact "" nilTerm] ]} |}
            (Atomic (nullary "")) 0)
    = Some ([[]], 2).
Proof. repeat split. Qed.

Lemma assume_returns (k : Knowledge) rule :
  inherited (pred (head rule)) = false →
  ∃ old k',
    Knowledge.rules k (pred (head rule)) = Some old ∧
    Knowledge.assume k rule = Some k' ∧
    Knowledge.rules k' (pred (head rule)) = Some (old ++ [rule]) ∧
    ImplProofSystem.assume {| knowledge := k |} rule = Some {| knowledge := k' |}.
Proof.
  intros Hp. destruct (rules_not_inherited k _ Hp) as [old Hold].
  exists old, (<[pred (head rule) := old ++ [rule]]> k).
  assert (Knowledge.assume k rule = Some (<[pred (head rule) := old ++ [rule]]> k)) as Ha.
  { unfold Knowledge.assume. by rewrite Hold. }
  split; [done|]. split; [done|]. split.
  - apply rules_own, lookup_insert_eq.
  - unfold ImplProofSystem.assume. simpl. by rewrite Ha.
Qed.

Lemma assumed_fact_answers p t n count :
  inherited p = false → p ≠ "!" → p ≠ "true" → Term.vars t = [] →
  ∃ sys,
    ImplProofSystem.assume createProofSystem (fact p t) = Some sys ∧
    toList (ImplProofSystem.query (termDepth t + 2 + n) sys
              (Atomic {| pred := p; term := t |}) count)
    = Some ([[]], count + 1 + 1).
Proof.
  intros Hp Hcut Htrue Ht.
  exists {| knowledge := <[p := [fact p t]]> Knowledge.default |}. split.
  - unfold ImplProofSystem.assume, createProofSystem, Knowledge.assume,
      Knowledge.rules, Knowledge.default.
    cbn [knowledge fact head pred]. rewrite lookup_empty, Hp. done.
  - unfold ImplProofSystem.query, query, proveCore. simpl knowledge.
    replace (termDepth t + 2 + n)%nat with (S (S (termDepth t + n))) by lia.
    cbn [Prop_.refresh nextVarId Prop_.withVarId Prop_.vars pred term].
    rewrite (term_withVarId_ground t _ Ht), Ht.
    cbn [proveProp]. unfold provePredWith. cbn [pred term CutProp TrueProp].
    rewrite (eqb_ne _ _ Hcut), (eqb_ne _ _ Htrue). cbn [andb].
    rewrite (rules_own _ p [fact p t]) by apply lookup_insert_eq.
    cbn [ruleLoop Rule.refresh nextVarId fact head goal pred term].
    rewrite (term_withVarId_ground t _ Ht).
    rewrite (tryUnify_ground_eq Env.default t t _ Ht Ht) by lia.
    rewrite decide_True by done. reflexivity.
Qed.

(** C3, amended: [assume] validates nothing and reports no validation
    error.  The empty name is a name like any other: every rule whose
    head's predicate name is not one of the property names that objects
    inherit is accepted, by [Knowledge.assume] and by the facade's
    [assume] alike, and appended to the rules stored under that name; and
    a fact so assumed in a new proof system answers the query for
    it. *)
Theorem assume_accepts_every_rule :
  inherited "" = false ∧
  (∀ (k : Knowledge) rule,
      inherited (pred (head rule)) = false →
      ∃ old k',
        Knowledge.rules k (pred (head rule)) = Some old ∧
        Knowledge.assume k rule = Some k' ∧
        Knowledge.rules k' (pred (head rule)) = Some (old ++ [rule]) ∧
        ImplProofSystem.assume {| knowledge := k |} rule = Some {| knowledge := k' |}) ∧
  (∀ p t n count,
      inherited p = false → p ≠ "!" → p ≠ "true" → Term.vars t = [] →
      ∃ sys,
        ImplProofSystem.assume createProofSystem (fact p t) = Some sys ∧
        toList (ImplProofSystem.query (termDepth t + 2 + n) sys
                  (Atomic {| pred := p; term := t |}) count)
        = Some ([[]], count + 1 + 1)).
Proof.
  split; [reflexivity|]. split; [apply assume_returns|apply assumed_fact_answers].
Qed.

Lemma assume_accepts_every_rule_witness :
  inherited (pred (head (fact "" (AppTerm "f" xSocrates)))) = false ∧
  ∃ sys,
    ImplProofSystem.assume createProofSystem (fact "" (AppTerm "f" xSocrates)) = Some sys ∧
    toList (ImplProofSystem.query (termDepth (AppTerm "f" xSocrates) + 2 + 0) sys
              (Atomic {| pred := ""; term := AppTerm "f" xSocrates |}) 0)
    = Some ([[]], 0 + 1 + 1).
Proof.
  split; [reflexivity|].
  destruct assume_accepts_every_rule as (_ & _ & Hanswers).
  apply (Hanswers "" (AppTerm "f" xSocrates) 0%nat 0).
  - reflexivity.
  - discriminate.
  - discriminate.
  - reflexivity.
Defined.

(** * The knowledge base in the store *)

Section StoreFacts.

Implicit Types (h : Store.Heap) (k l : Store.loc) (o : Store.object).

Lemma alloc_old h o l o' :
  h !! l = Some o' → (Store.alloc h o).2 !! l = Some o'.
Proof. intros H. simpl. by apply lookup_app_l_Some. Qed.

Lemma alloc_new h o : (Store.alloc h o).2 !! (Store.alloc h o).1 = Some o.
Proof. simpl. by rewrite lookup_app_r, Nat.sub_diag. Qed.

Lemma alloc_fresh h o : h !! (Store.alloc h o).1 = None.
Proof. simpl. by apply lookup_ge_None. Qed.

Lemma assume_inv h k rule k' h' :
  Store.assume h k rule = Some (k', h') →
  ∃ props old,
    h !! k = Some (Store.KnowledgeObject props) ∧
    Store.rules h k (pred (head rule)) = Some old ∧
    k' = length (h ++ [Store.RuleArray (old ++ [rule])]) ∧
    h' = (h ++ [Store.RuleArray (old ++ [rule])])
           ++ [Store.KnowledgeObject (<[pred (head rule) := length h]> props)].
Proof.
  unfold Store.assume. intros H.
  destruct (h !! k) as [[|props|]|] eqn:Hk; try discriminate.
  destruct (Store.rules h k (pred (head rule))) as [old|] eqn:Hold; [|discriminate].
  simpl in H. injection H as <- <-. by exists props, old.
Qed.

Lemma lookup_snoc_old h o1 o2 l o :
  h !! l = Some o → ((h ++ [o1]) ++ [o2]) !! l = Some o.
Proof. intros H. by do 2 apply lookup_app_l_Some. Qed.

Lemma lookup_snoc_first h o1 o2 : ((h ++ [o1]) ++ [o2]) !! length h = Some o1.
Proof. apply lookup_app_l_Some. by apply list_lookup_middle. Qed.

Lemma lookup_snoc_second h o1 o2 :
  ((h ++ [o1]) ++ [o2]) !! length (h ++ [o1]) = Some o2.
Proof. by apply list_lookup_middle. Qed.











End StoreFacts.


Lemma emptyStore_wellFormed : Store.wellFormed emptyStore 0%nat.
Proof.
  exists ∅. split; [reflexivity|]. intros p a Hp.
  rewrite lookup_empty in Hp. discriminate Hp.
Defined.



(** * The unit tests of the source, on the model *)

(** [Knowledge]: "doesn't know undefined predicates", "can assume many". *)
Example test_knowledge :
  Knowledge.rules Knowledge.default "human" = Some [] ∧
  (Knowledge.assume Knowledge.default minor ≫= fun k1 => Knowledge.rules k1 "human")
    = Some [minor] ∧
  (Knowledge.assume Knowledge.default minor ≫= fun k1 =>
   Knowledge.assume k1 platoRule ≫= fun k2 => Knowledge.rules k2 "human")
    = Some [minor; platoRule].
Proof. repeat split. Qed.

(** [Env]: "can bind a var and find it", "can't find unbound var". *)
Example test_env :
  (Env.bind 1 Env.default varX xSocrates ≫= fun e => Env.tryFind e varX)
  = Some xSocrates ∧
  Env.tryFind Env.default varX = None.
Proof. split; reflexivity. Qed.

(** [tryUnify]: "var binding", "app binding", "list binding". *)
Example test_tryUnify :
  (Env.tryUnify 2 Env.default (VarTerm varX) xSocrates
     ≫= fun r => r ≫= fun e => Env.substitute 2 e (VarTerm varX))
  = Some xSocrates ∧
  (Env.tryUnify 3 Env.default (AppTerm "f" (VarTerm varX)) (AppTerm "f" xSocrates)
     ≫= fun r => r ≫= fun e => Env.substitute 2 e (VarTerm varX))
  = Some xSocrates ∧
  (Env.tryUnify 4 Env.default listXPlato listSocratesY
     ≫= fun r => r ≫= fun e =>
        Env.substitute 4 e (ConsTerm (VarTerm varX) (ConsTerm (VarTerm varY) nilTerm)))
  = Some listSocratesPlato.
Proof. repeat split. Qed.

(** [Syllogism]: "can find rules", "can match head", "can conclude". *)
Example test_syllogism :
  let k := Knowledge.returned (Knowledge.assumeMany Knowledge.default [major; minor]) in
  Knowledge.assumeMany Knowledge.default [major; minor] = Some k ∧
  Knowledge.rules k "mortal" = Some [major] ∧
  Knowledge.rules k "human" = Some [minor] ∧
  Env.tryUnify 2 Env.default (VarTerm varX) xSocrates = Some (Some xSocratesEnv) ∧
  toList (query 4 (Atomic (mortal xSocrates)) Env.default k 0) = Some ([[]], 3).
Proof. repeat split. Qed.

(** The knowledge bases of the scenarios are knowledge bases that
    [assume] returned. *)
Example scenarios_returned :
  (Knowledge.assumeMany Knowledge.default [major; minor]
     ≫= fun k => Knowledge.assume k platoRule) = Some syllogism ∧
  Knowledge.assumeMany Knowledge.default
    [fact "unknown" (free "x"); fact "unknown" (AtomTerm "a")] = Some unknowns ∧
  Knowledge.assumeMany Knowledge.default
    [pCutQ; pR; fact "q" nilTerm; fact "r" nilTerm] = Some (cutKnowledge pCutQ pR) ∧
  Knowledge.assumeMany Knowledge.default
    [pTrueQ; pR; fact "q" nilTerm; fact "r" nilTerm] = Some (cutKnowledge pTrueQ pR) ∧
  (∀ t g,
      Knowledge.assumeMany Knowledge.default
        [pCutQ; {| head := {| pred := "p"; term := t |}; goal := g |};
         fact "q" nilTerm; fact "r" nilTerm]
      = Some (cutKnowledge pCutQ {| head := {| pred := "p"; term := t |}; goal := g |})) ∧
  Knowledge.assumeMany (cutKnowledge pCutQ pR) [sP; sR] = Some callerKnowledge ∧
  Knowledge.assumeMany Knowledge.default [pCutQ; pR; fact "r" nilTerm]
    = Some cutFailKnowledge ∧
  Knowledge.rules branching "p"
    = Some [ {| head := {| pred := "p"; term := free "x" |};
                goal := Some (Atomic {| pred := "q"; term := free "x" |}) |};
             {| head := {| pred := "p"; term := free "x" |};
                goal := Some (Atomic {| pred := "r"; term := free "x" |}) |} ] ∧
  Knowledge.rules branching "q" = Some [fact "q" (AtomTerm "a"); fact "q" (AtomTerm "b")] ∧
  Knowledge.rules branching "r" = Some [fact "r" (AtomTerm "c"); fact "r" (AtomTerm "d")].
Proof. repeat split. Qed.

(** A name that objects inherit, without an entry of its own: [assume]
    throws, and so does a query for it. *)
Example test_inherited :
  Knowledge.assume Knowledge.default (fact "constructor" nilTerm) = None ∧
  failureOf (query 2 (Atomic (nullary "toString")) Env.default Knowledge.default 0)
    = Some TypeError.
Proof. repeat split. Qed.

(** * Further properties of the environment *)

(** X1: every variable that occurs in a term returned by [substitute] is
    unbound in the environment; in particular the term that [bind] stores
    for a variable mentions no variable that was bound before. *)
Theorem substitute_leaves_unbound fuel (env0 : Env) (t r : Term) :
  Env.substitute fuel env0 t = Some r →
  ∀ v, v ∈ Term.vars r → Env.tryFind env0 v = None.
Proof. apply substitute_vars_unbound. Qed.

Lemma substitute_leaves_unbound_witness :
  Env.substitute 4 chainEnv (ConsTerm (VarTerm varX) (free "z"))
    = Some (ConsTerm xSocrates (free "z")) ∧
  ∀ v, v ∈ Term.vars (ConsTerm xSocrates (free "z")) → Env.tryFind chainEnv v = None.
Proof.
  split; [reflexivity|].
  apply (substitute_leaves_unbound 4 chainEnv (ConsTerm (VarTerm varX) (free "z"))).
  reflexivity.
Defined.

(** X2: on a term none of whose variables is bound, [substitute] returns
    the term itself, with a recursion no deeper than the term; so it does
    on every term in the empty environment and on every term without
    variables in any environment. *)
Theorem substitute_unbound_identity (env0 : Env) (t : Term) (n : nat) :
  (∀ v, v ∈ Term.vars t → Env.tryFind env0 v = None) →
  (termDepth t < n)%nat →
  Env.substitute n env0 t = Some t.
Proof.
  revert n. induction t as [v|a|f x IH|h IHh tl IHt]; intros n Hv Hn;
    (destruct n as [|n]; [lia|]); simpl in Hn |- *.
  - rewrite Hv; [done|]. simpl. by apply list_elem_of_singleton.
  - done.
  - rewrite IH; [done|done|lia].
  - rewrite IHh, IHt; [done| | | |].
    + intros v Hin. apply Hv. simpl. apply elem_of_app. by right.
    + lia.
    + intros v Hin. apply Hv. simpl. apply elem_of_app. by left.
    + lia.
Qed.

Lemma substitute_unbound_identity_witness :
  Env.substitute 3 Env.default listXPlato = Some listXPlato.
Proof.
  apply (substitute_unbound_identity Env.default listXPlato 3).
  - intros v _. reflexivity.
  - simpl. lia.
Defined.

(** X3: on two terms without variables [tryUnify] is a test for structural
    equality: it returns the environment unchanged when the terms are
    equal and [undefined] when they differ. *)
Theorem tryUnify_ground (env0 : Env) (a b : Term) (n : nat) :
  Term.vars a = [] → Term.vars b = [] → (termDepth a < n)%nat →
  Env.tryUnify n env0 a b = Some (if decide (a = b) then Some env0 else None).
Proof. apply tryUnify_ground_eq. Qed.

Lemma tryUnify_ground_witness :
  Env.tryUnify 3 xSocratesEnv listSocratesPlato (ConsTerm xSocrates nilTerm)
  = Some None.
Proof.
  apply (tryUnify_ground xSocratesEnv listSocratesPlato (ConsTerm xSocrates nilTerm) 3).
  - reflexivity.
  - reflexivity.
  - simpl. lia.
Defined.

(** X4: unifying a term with itself, when the environment binds none of
    its variables, returns the environment unchanged: nothing is bound,
    and an unbound variable is not bound to itself. *)
Theorem tryUnify_same_term (env0 : Env) (t : Term) (n : nat) :
  (∀ v, v ∈ Term.vars t → Env.tryFind env0 v = None) →
  (termDepth t + 1 < n)%nat →
  Env.tryUnify n env0 t t = Some (Some env0).
Proof.
  revert n. induction t as [v|a|f x IH|h IHh tl IHt]; intros n Hv Hn;
    (destruct n as [|n]; [lia|]); simpl in Hn; cbn [Env.tryUnify].
  - unfold Env.tryUnifyVar, Env.bind.
    assert (Env.tryFind env0 v = None) as Hunb.
    { apply Hv. simpl. by apply list_elem_of_singleton. }
    rewrite Hunb. destruct n as [|n]; [lia|]. cbn [Env.substitute]. rewrite Hunb.
    by rewrite (proj2 (isVar_spec (VarTerm v) v) eq_refl).
  - by rewrite String.eqb_refl.
  - rewrite String.eqb_refl. apply IH; [done|lia].
  - rewrite IHh.
    + apply IHt; [|lia]. intros v Hin. apply Hv. simpl. apply elem_of_app. by right.
    + intros v Hin. apply Hv. simpl. apply elem_of_app. by left.
    + lia.
Qed.

Lemma tryUnify_same_term_witness :
  Env.tryUnify 4 Env.default listXPlato listXPlato = Some (Some Env.default).
Proof.
  apply (tryUnify_same_term Env.default listXPlato 4).
  - intros v _. reflexivity.
  - simpl. lia.
Defined.

Lemma tryUnify_keeps_reachable fuel :
  ∀ (env0 : Env) a b env',
    Env.tryUnify fuel env0 a b = Some (Some env') → reachable env0 → reachable env'.
Proof.
  assert (∀ unify n (env0 : Env) v t env',
            (∀ (e : Env) a b e', unify e a b = Some (Some e') → reachable e → reachable e') →
            Env.tryUnifyVar unify n env0 v t = Some (Some env') →
            reachable env0 → reachable env') as Hvar.
  { intros unify n env0 v t env' IH H Hr. unfold Env.tryUnifyVar in H.
    destruct (Env.tryFind env0 v) as [b|].
    - destruct (Env.substitute n env0 b) as [s|]; [|discriminate]. by eapply IH.
    - destruct (Env.bind n env0 v t) as [e|] eqn:Hb; [|discriminate].
      injection H as <-. by eapply reachable_bind. }
  induction fuel as [|n IH]; intros env0 a b env' H Hr; [discriminate|].
  destruct a as [v|a|f x|h1 t1], b as [w|b|g y|h2 t2]; simpl in H;
    try discriminate; try (by eapply Hvar).
  - destruct (String.eqb a b); [|discriminate]. by injection H as <-.
  - destruct (String.eqb f g); [|discriminate]. by eapply IH.
  - destruct (Env.tryUnify n env0 h1 h2) as [[env2|]|] eqn:Hh; try discriminate.
    eapply IH; [done|]. by eapply IH.
Qed.

(** X5: [tryUnify] changes the environment through [bind] only, so from
    an environment built by [bind] it returns one built by [bind]: no
    variable bound to itself, no cycle of variable-to-variable bindings. *)
Theorem tryUnify_reachable fuel (env0 : Env) (a b : Term) (env' : Env) :
  reachable env0 →
  Env.tryUnify fuel env0 a b = Some (Some env') →
  reachable env' ∧
  (∀ v, Env.tryFind env' v ≠ Some (VarTerm v)) ∧
  (∀ v, ¬ tc (link env') v v).
Proof.
  intros Hr H. pose proof (tryUnify_keeps_reachable fuel _ _ _ _ H Hr) as Hr'.
  pose proof (reachable_link_acc env' Hr') as Hacc.
  split; [done|]. split.
  - intros v Hv. apply (Acc_no_cycle _ v (Hacc v)). by apply tc_once.
  - intros v. by apply Acc_no_cycle.
Qed.

Lemma tryUnify_reachable_witness :
  reachable Env.default ∧
  Env.tryUnify 5 Env.default listXPlato listSocratesY = Some (Some listEnv) ∧
  reachable listEnv.
Proof.
  split; [exact reachable_default|]. split; [reflexivity|].
  apply (tryUnify_reachable 5 Env.default listXPlato listSocratesY listEnv).
  - exact reachable_default.
  - reflexivity.
Defined.

(** X6: two lists of different lengths never unify: on [listTerm]s of
    different lengths [tryUnify] does not return an environment, whatever
    the elements and the environment. *)
Theorem tryUnify_list_lengths (ts1 ts2 : list Term) :
  length ts1 ≠ length ts2 →
  ∀ n (env0 env' : Env),
    Env.tryUnify n env0 (listTerm ts1) (listTerm ts2) ≠ Some (Some env').
Proof.
  revert ts2. induction ts1 as [|a r1 IH]; intros [|b r2] Hlen n env0 env';
    simpl in Hlen; try lia; (destruct n as [|n]; [done|]); simpl.
  - done.
  - done.
  - destruct (Env.tryUnify n env0 a b) as [[env2|]|]; try done.
    apply IH. lia.
Qed.

Lemma tryUnify_list_lengths_witness :
  Env.tryUnify 4 Env.default (listTerm [VarTerm varX]) (listTerm [xSocrates; xPlato])
  ≠ Some (Some xSocratesEnv).
Proof.
  apply (tryUnify_list_lengths [VarTerm varX] [xSocrates; xPlato]).
  simpl. lia.
Defined.

(** * Further properties of the prover *)

Lemma allYields_mono {A} (P Q : A → Prop) (gen : Gen A) :
  (∀ a, P a → Q a) → allYields P gen → allYields Q gen.
Proof.
  intros HPQ. induction gen as [c|a c resume IH|]; simpl; [done| |done].
  intros [Ha Hres]. split; [by apply HPQ|]. intros c'. apply IH, Hres.
Qed.

Lemma allYields_reyield {A} (P : A → Prop) (gen : Gen A) :
  allYields P gen → allYields P (reyield gen).
Proof.
  induction gen as [c|a c resume IH|]; simpl; [done| |done].
  intros [Ha Hres]. split; [done|]. intros c'. apply IH, Hres.
Qed.

Lemma allYields_goalLoop (P Q : ProveResult → Prop) results
    (nextRule : Z → Gen ProveResult) :
  (∀ r, P r → Q {| env := env r; cut := false |}) →
  allYields P results →
  (∀ c, allYields Q (nextRule c)) →
  allYields Q (goalLoop results nextRule).
Proof.
  intros HPQ Hres Hnext.
  induction results as [c|r c resume IH|]; simpl; [done| |done].
  destruct Hres as [Hr Hres]. split; [by apply HPQ|].
  intros c'. destruct (cut r); [done|]. apply IH, Hres.
Qed.

Lemma allYields_rightLoop (P Q : ProveResult → Prop) cut2 rights
    (nextLeft : Z → Gen ProveResult) :
  (∀ r, P r → Q (withCut cut2 r)) →
  allYields P rights →
  (∀ c, allYields Q (nextLeft c)) →
  allYields Q (rightLoop cut2 rights nextLeft).
Proof.
  intros HPQ Hres Hnext.
  induction rights as [c|r c resume IH|]; simpl; [done| |done].
  destruct Hres as [Hr Hres]. split; [by apply HPQ|].
  intros c'. apply IH, Hres.
Qed.

Lemma allYields_leftLoop (P : ProveResult → Prop) (Q : ProveResult → Prop) lefts
    (proveRight : Env → Z → Gen ProveResult) :
  allYields P lefts →
  (∀ l c, P l → allYields (fun r => Q (withCut (cut l) r)) (proveRight (env l) c)) →
  allYields Q (leftLoop lefts proveRight).
Proof.
  intros Hl Hright.
  induction lefts as [c|l c resume IH|]; simpl; [done| |done].
  destruct Hl as [Hl Hres].
  apply allYields_rightLoop with (P := fun r => Q (withCut (cut l) r)).
  - done.
  - by apply Hright.
  - intros c'. apply IH, Hres.
Qed.

Section Invariant.

(** A relation between the environment a proof starts from and the
    environments it yields that unification respects. *)
Variable R : Env → Env → Prop.
Hypothesis R_refl : ∀ e, R e e.
Hypothesis R_trans : ∀ e1 e2 e3, R e1 e2 → R e2 e3 → R e1 e3.
Hypothesis R_unify :
  ∀ n e a b e', Env.tryUnify n e a b = Some (Some e') → R e e'.

Lemma ruleLoop_related (proveGoal : Prop_ → Env → Z → Gen ProveResult)
    fuel prop (env0 : Env) rules count :
  (∀ g e c, allYields (fun r => R e (env r)) (proveGoal g e c)) →
  allYields (fun r => R env0 (env r))
            (ruleLoop proveGoal fuel prop env0 rules count).
Proof.
  intros Hgoal. revert count.
  induction rules as [|rule rest IH]; intros count; simpl; [done|].
  destruct (Env.tryUnify _ _ _ _) as [[env2|]|] eqn:Hu; [|apply IH|done].
  apply R_unify in Hu.
  destruct (goal rule) as [g|]; simpl.
  - apply allYields_goalLoop with (P := fun r => R env2 (env r)); [|apply Hgoal|done].
    intros r Hr. simpl. by eapply R_trans.
  - done.
Qed.

Lemma proveProp_related fuel (k : Knowledge) :
  ∀ prop (env0 : Env) count,
    allYields (fun r => R env0 (env r)) (proveProp fuel prop env0 k count).
Proof.
  induction fuel as [|n IH]; intros prop env0 count; [done|].
  destruct prop as [p|l r]; cbn [proveProp].
  - apply allYields_reyield. unfold provePredWith.
    destruct (_ && _); [simpl; by auto|].
    destruct (_ && _); [simpl; by auto|].
    destruct (Knowledge.rules k (pred p)) as [rules|]; [|done].
    apply ruleLoop_related. intros g e c. apply IH.
  - apply allYields_leftLoop with (P := fun r => R env0 (env r)); [apply IH|].
    intros lr c Hl. eapply allYields_mono; [|apply IH].
    intros rr Hr. simpl. by eapply R_trans.
Qed.

End Invariant.

(** X7: the prover only adds bindings: every result that [proveProp]
    yields carries an environment that keeps all bindings of the
    environment the proof started from. *)
Theorem proveProp_extends fuel (prop : Prop_) (env0 : Env) (k : Knowledge) count :
  allYields (fun r => ∀ v t, Env.tryFind env0 v = Some t →
                             Env.tryFind (env r) v = Some t)
            (proveProp fuel prop env0 k count).
Proof.
  apply (proveProp_related extends).
  - apply extends_refl.
  - apply extends_trans.
  - intros n. apply tryUnify_extends.
Qed.

Lemma proveProp_extends_witness :
  allYields (fun r => ∀ v t, Env.tryFind xSocratesEnv v = Some t →
                             Env.tryFind (env r) v = Some t)
            (proveProp 4 (Atomic (mortal (free "y"))) xSocratesEnv syllogism 0).
Proof.
  exact (proveProp_extends 4 (Atomic (mortal (free "y"))) xSocratesEnv syllogism 0).
Defined.

(** X8: started from an environment built by [bind], the empty one of
    [ImplProofSystem.query] in particular, the prover yields only
    environments built by [bind], which have no variable bound to itself
    and no cycle of variable-to-variable bindings. *)
Theorem proveProp_reachable fuel (prop : Prop_) (env0 : Env) (k : Knowledge) count :
  reachable env0 →
  allYields (fun r => reachable (env r) ∧
                      ∀ v, Env.tryFind (env r) v ≠ Some (VarTerm v))
            (proveProp fuel prop env0 k count).
Proof.
  intros Hr.
  apply allYields_mono with (P := fun r => reachable env0 → reachable (env r)).
  - intros r Hreach. specialize (Hreach Hr). split; [done|].
    intros v Hv.
    apply (Acc_no_cycle _ v (reachable_link_acc _ Hreach v)). by apply tc_once.
  - apply (proveProp_related (fun e e' => reachable e → reachable e')).
    + done.
    + intros e1 e2 e3 H12 H23 H1. by apply H23, H12.
    + intros n e a b e'. apply tryUnify_keeps_reachable.
Qed.

Lemma proveProp_reachable_witness :
  reachable Env.default ∧
  allYields (fun r => reachable (env r) ∧
                      ∀ v, Env.tryFind (env r) v ≠ Some (VarTerm v))
            (proveProp 4 (Atomic (mortal (free "x"))) Env.default syllogism 0).
Proof.
  split; [exact reachable_default|].
  apply (proveProp_reachable 4 (Atomic (mortal (free "x"))) Env.default syllogism 0).
  exact reachable_default.
Defined.

Lemma agree_extends (e e' : Env) a b :
  extends e e' → agree e a b → agree e' a b.
Proof.
  intros He Hab r. split; intros Hr.
  - destruct (substitutes_restrict _ _ _ _ He Hr) as [s Hs].
    apply (substitutes_extends _ _ _ _ r He Hs) in Hr.
    apply (Hab s) in Hs. by apply (substitutes_extends _ _ _ _ r He Hs).
  - destruct (substitutes_restrict _ _ _ _ He Hr) as [s Hs].
    apply (substitutes_extends _ _ _ _ r He Hs) in Hr.
    apply (Hab s) in Hs. by apply (substitutes_extends _ _ _ _ r He Hs).
Qed.

(** X9 (a resolution step is sound): every result that the loop over the
    rules of a predicate yields for a goal comes from one of those rules,
    renamed with some id, and under the environment of the result the
    argument of the goal and the argument of that renamed head come to the
    same term. *)
Theorem ruleLoop_head_agrees fuel (k : Knowledge) (prop : PredProp) (env0 : Env)
    (rules : list Rule) count :
  allYields
    (fun r => ∃ rule id, rule ∈ rules ∧
                agree (env r) (term prop) (Term.withVarId (term (head rule)) id))
    (ruleLoop (fun g e c => proveProp fuel g e k c) fuel prop env0 rules count).
Proof.
  revert count. induction rules as [|rule rest IH]; intros count; simpl; [done|].
  assert (∀ c, allYields
    (fun r => ∃ rule0 id, rule0 ∈ rule :: rest ∧
                agree (env r) (term prop) (Term.withVarId (term (head rule0)) id))
    (ruleLoop (fun g e c => proveProp fuel g e k c) fuel prop env0 rest c)) as Hrest.
  { intros c. eapply allYields_mono; [|apply IH].
    intros r (rule0 & id & Hin & Hag). exists rule0, id. split; [|done].
    by apply list_elem_of_further. }
  destruct (Env.tryUnify _ _ _ _) as [[env2|]|] eqn:Hu; [|apply Hrest|done].
  pose proof (tryUnify_agrees _ _ _ _ _ Hu) as Hag.
  destruct (goal rule) as [g|]; simpl.
  - apply allYields_goalLoop with (P := fun r => extends env2 (env r)); [| |done].
    + intros r Hr. simpl. exists rule, (count + 1). split; [apply list_elem_of_here|].
      by apply (agree_extends env2).
    + apply (proveProp_related extends);
        [apply extends_refl|apply extends_trans|intros n; apply tryUnify_extends].
  - split; [|apply Hrest].
    exists rule, (count + 1). split; [apply list_elem_of_here|done].
Qed.

(** ** Built-in predicates, unknown predicates, conjunction *)

(** X10: a predicate the knowledge base has no rules for is no error,
    unless its name is one that objects inherit: a query for it, other
    than the built-in ones, ends without a solution after drawing the one
    id of the query itself; under an inherited name, such as
    ["constructor"], what the lookup finds is no array and the query ends
    with a [TypeError]. *)
Theorem query_unknown_predicate n (p : PredProp) (env0 : Env) (k : Knowledge) count :
  k !! pred p = None → pred p ≠ "!" → pred p ≠ "true" →
  (inherited (pred p) = false →
   toList (query (S n) (Atomic p) env0 k count) = Some ([], count + 1)) ∧
  (inherited (pred p) = true →
   toList (query (S n) (Atomic p) env0 k count) = None ∧
   failureOf (query (S n) (Atomic p) env0 k count) = Some TypeError).
Proof.
  intros Hk Hcut Htrue.
  assert (∀ r, Knowledge.rules k (pred p) = r →
            query (S n) (Atomic p) env0 k count
            = solutionsOf (S n) (distinct (Prop_.vars (Prop_.withVarId (Atomic p) (count + 1))))
                (envsOf (reyield
                   match r with
                   | Some rules =>
                     ruleLoop (fun g e c => proveProp n g e k c) n
                       {| pred := pred p; term := Term.withVarId (term p) (count + 1) |}
                       env0 rules (count + 1)
                   | None => Abort TypeError
                   end))) as Hq.
  { intros r <-. unfold query, proveCore.
    cbn [Prop_.refresh nextVarId Prop_.withVarId proveProp].
    unfold provePredWith. cbn [pred term CutProp TrueProp].
    by rewrite (eqb_ne _ _ Hcut), (eqb_ne _ _ Htrue). }
  unfold Knowledge.rules in Hq. rewrite Hk in Hq. split; intros Hp; rewrite Hp in Hq.
  - by rewrite (Hq _ eq_refl).
  - by rewrite (Hq _ eq_refl).
Qed.

Lemma query_unknown_predicate_witness :
  toList (query 1 (Atomic (mortal (free "x"))) Env.default unknowns 0) = Some ([], 1) ∧
  failureOf (query 1 (Atomic {| pred := "constructor"; term := free "x" |})
               Env.default unknowns 0) = Some TypeError.
Proof.
  split.
  - apply (query_unknown_predicate 0 (mortal (free "x")) Env.default unknowns 0);
      [reflexivity|discriminate|discriminate|reflexivity].
  - apply (query_unknown_predicate 0 {| pred := "constructor"; term := free "x" |}
             Env.default unknowns 0);
      [reflexivity|discriminate|discriminate|reflexivity].
Defined.

(** X11: the built-in predicates are looked at before the knowledge
    base, so rules asserted under the names [true] and [!] never change
    them: whatever the knowledge base, [true] with [nil] yields the
    environment once without the flag, [!] with [nil] yields it once with
    the flag, and neither draws an id. *)
Theorem builtins_not_overridden fuel (env0 : Env) (k : Knowledge) count :
  toList (provePred fuel TrueProp env0 k count)
    = Some ([ {| env := env0; cut := false |} ], count) ∧
  toList (provePred fuel CutProp env0 k count)
    = Some ([ {| env := env0; cut := true |} ], count) ∧
  toList (proveProp (S fuel) (Atomic TrueProp) env0 k count)
    = Some ([ {| env := env0; cut := false |} ], count) ∧
  toList (proveProp (S fuel) (Atomic CutProp) env0 k count)
    = Some ([ {| env := env0; cut := true |} ], count).
Proof. repeat split. Qed.

Lemma withCut_false r : withCut false r = r.
Proof. by destruct r. Qed.

Lemma map_withCut_false l : map (withCut false) l = l.
Proof. induction l as [|r l IH]; simpl; [done|]. by rewrite withCut_false, IH. Qed.

Lemma withCut_right_false c r :
  {| env := env r; cut := c || false |} = {| env := env r; cut := c |}.
Proof. by rewrite orb_false_r. Qed.

Lemma proveProp_conj m l r (e : Env) (k : Knowledge) c :
  proveProp (S m) (ConjProp l r) e k c
  = leftLoop (proveProp m l e k c) (fun e2 c' => proveProp m r e2 k c').
Proof. reflexivity. Qed.

Lemma proveProp_true m (e : Env) (k : Knowledge) c :
  proveProp (S m) (Atomic TrueProp) e k c
  = Yield {| env := e; cut := false |} c (fun c' => reyield (Done c')).
Proof. reflexivity. Qed.

Lemma proveProp_cut m (e : Env) (k : Knowledge) c :
  proveProp (S m) (Atomic CutProp) e k c
  = Yield {| env := e; cut := true |} c (fun c' => reyield (Done c')).
Proof. reflexivity. Qed.

Lemma toList_leftLoop_true m (k : Knowledge) lefts :
  toList (leftLoop lefts (fun e c => proveProp (S m) (Atomic TrueProp) e k c))
  = toList lefts.
Proof.
  induction lefts as [c|r c resume IH|]; [done| |done].
  cbn [leftLoop]. rewrite toList_rightLoop, proveProp_true.
  cbn [toList reyield]. cbv beta iota. rewrite IH.
  destruct (toList (resume c)) as [[l c']|]; [|done].
  simpl. unfold withCut. simpl. rewrite orb_false_r. by destruct r.
Qed.

(** X12: [true] is a unit of conjunction and a cut on the left marks what
    follows: [true, p] and [p, true] yield exactly the results of [p],
    flags included, and [!, p] yields the results of [p] with the cut flag
    set on each; so when [p] has no result, [!, p] has none either. *)
Theorem conjunction_units n (p : Prop_) (env0 : Env) (k : Knowledge) count :
  toList (proveProp (S (S n)) (ConjProp (Atomic TrueProp) p) env0 k count)
    = toList (proveProp (S n) p env0 k count) ∧
  toList (proveProp (S (S n)) (ConjProp p (Atomic TrueProp)) env0 k count)
    = toList (proveProp (S n) p env0 k count) ∧
  toList (proveProp (S (S n)) (ConjProp (Atomic CutProp) p) env0 k count)
    = match toList (proveProp (S n) p env0 k count) with
      | Some (l, count') => Some (map (withCut true) l, count')
      | None => None
      end.
Proof.
  split; [|split].
  - rewrite proveProp_conj, proveProp_true. cbn [leftLoop env cut].
    rewrite toList_rightLoop.
    destruct (toList (proveProp (S n) p env0 k count)) as [[l c']|]; [|done].
    simpl. by rewrite app_nil_r, map_withCut_false.
  - rewrite proveProp_conj. apply toList_leftLoop_true.
  - rewrite proveProp_conj, proveProp_cut. cbn [leftLoop env cut].
    rewrite toList_rightLoop.
    destruct (toList (proveProp (S n) p env0 k count)) as [[l c']|]; [|done].
    simpl. by rewrite app_nil_r.
Qed.

(** X13: a predicate given by facts alone: every rule tried draws
    exactly one id, and each fact contributes at most one result, so the
    enumeration ends with the counter advanced by the number of facts and
    with no more results than facts. *)
Theorem ruleLoop_facts (proveGoal : Prop_ → Env → Z → Gen ProveResult)
    fuel (prop : PredProp) (env0 : Env) (rules : list Rule) count l count' :
  Forall (fun rule => goal rule = None) rules →
  toList (ruleLoop proveGoal fuel prop env0 rules count) = Some (l, count') →
  count' = count + Z.of_nat (length rules) ∧ (length l ≤ length rules)%nat.
Proof.
  intros Hfacts. revert count l.
  induction Hfacts as [|rule rest Hrule _ IH]; intros count l H; simpl in H.
  - injection H as <- <-. simpl. split; [lia|done].
  - rewrite Hrule in H.
    destruct (Env.tryUnify _ _ _ _) as [[env2|]|]; [| |discriminate].
    + simpl in H.
      destruct (toList (ruleLoop _ _ _ _ rest _)) as [[l0 c0]|] eqn:H0; [|discriminate].
      injection H as <- <-. destruct (IH _ _ H0) as [-> Hlen].
      simpl. split; lia.
    + destruct (IH _ _ H) as [-> Hlen]. simpl. split; lia.
Qed.

Lemma ruleLoop_facts_witness :
  2 = 0 + Z.of_nat (length [minor; platoRule]) ∧
  (length [ {| env := Env.default; cut := false |} ] ≤ length [minor; platoRule])%nat.
Proof.
  apply (ruleLoop_facts (fun g e c => proveProp 2 g e syllogism c) 2
           (human xSocrates) Env.default [minor; platoRule] 0
           [ {| env := Env.default; cut := false |} ] 2).
  - repeat constructor.
  - reflexivity.
Defined.

(** ** The id counter *)

Lemma advancing_weaken {A} c c' (gen : Gen A) :
  c ≤ c' → advancing c' gen → advancing c gen.
Proof.
  intros Hc. destruct gen as [d|a d resume|]; simpl; [lia| |done].
  intros [Hd Hres]. split; [lia|done].
Qed.

Lemma advancing_reyield {A} c (gen : Gen A) :
  advancing c gen → advancing c (reyield gen).
Proof.
  revert c. induction gen as [d|a d resume IH|]; intros c; simpl; [done| |done].
  intros [Hd Hres]. split; [done|]. intros c'' Hc. by apply IH, Hres.
Qed.

Lemma advancing_goalLoop c results (nextRule : Z → Gen ProveResult) :
  advancing c results → (∀ c1, c ≤ c1 → advancing c1 (nextRule c1)) →
  advancing c (goalLoop results nextRule).
Proof.
  revert c. induction results as [d|r d resume IH|]; intros c; simpl.
  - intros Hd Hnext. apply (advancing_weaken c d); [done|by apply Hnext].
  - intros [Hd Hres] Hnext. split; [done|]. intros c'' Hc.
    destruct (cut r); [simpl; lia|].
    apply IH; [by apply Hres|]. intros c1 Hc1. apply Hnext. lia.
  - done.
Qed.

Lemma advancing_rightLoop c cut2 rights (nextLeft : Z → Gen ProveResult) :
  advancing c rights → (∀ c1, c ≤ c1 → advancing c1 (nextLeft c1)) →
  advancing c (rightLoop cut2 rights nextLeft).
Proof.
  revert c. induction rights as [d|r d resume IH|]; intros c; simpl.
  - intros Hd Hnext. apply (advancing_weaken c d); [done|by apply Hnext].
  - intros [Hd Hres] Hnext. split; [done|]. intros c'' Hc.
    apply IH; [by apply Hres|]. intros c1 Hc1. apply Hnext. lia.
  - done.
Qed.

Lemma advancing_leftLoop c lefts (proveRight : Env → Z → Gen ProveResult) :
  advancing c lefts → (∀ e c1, advancing c1 (proveRight e c1)) →
  advancing c (leftLoop lefts proveRight).
Proof.
  intros Hres Hright. revert c Hres.
  induction lefts as [d|r d resume IH|]; intros c; simpl; [done|intros [Hd Hres]|done].
  apply (advancing_weaken c d); [done|].
  apply advancing_rightLoop; [apply Hright|].
  intros c1 Hc1. by apply IH, Hres.
Qed.

Lemma advancing_ruleLoop (proveGoal : Prop_ → Env → Z → Gen ProveResult)
    fuel prop (env0 : Env) rules count :
  (∀ g e c, advancing c (proveGoal g e c)) →
  advancing count (ruleLoop proveGoal fuel prop env0 rules count).
Proof.
  intros Hgoal. revert count.
  induction rules as [|rule rest IH]; intros count; simpl; [lia|].
  destruct (Env.tryUnify _ _ _ _) as [[env2|]|]; [| |done].
  - destruct (goal rule) as [g|]; simpl.
    + apply (advancing_weaken count (count + 1)); [lia|].
      apply advancing_goalLoop; [apply Hgoal|]. intros c1 _. apply IH.
    + split; [lia|]. intros c'' _. apply IH.
  - apply (advancing_weaken count (count + 1)); [lia|apply IH].
Qed.

Lemma advancing_proveProp fuel (k : Knowledge) :
  ∀ prop (env0 : Env) count, advancing count (proveProp fuel prop env0 k count).
Proof.
  induction fuel as [|n IH]; intros prop env0 count; [done|].
  destruct prop as [p|l r].
  - cbn [proveProp]. apply advancing_reyield. unfold provePredWith.
    destruct (_ && _); [simpl; split; [lia|intros; simpl; lia]|].
    destruct (_ && _); [simpl; split; [lia|intros; simpl; lia]|].
    destruct (Knowledge.rules k (pred p)) as [rules|]; [|done].
    apply advancing_ruleLoop. intros g e c. apply IH.
  - rewrite proveProp_conj. apply advancing_leftLoop; [apply IH|].
    intros e c1. apply IH.
Qed.

Lemma advancing_envsOf c results : advancing c results → advancing c (envsOf results).
Proof.
  revert c. induction results as [d|r d resume IH|]; intros c; simpl; [done| |done].
  intros [Hd Hres]. split; [done|]. intros c'' Hc. by apply IH, Hres.
Qed.

Lemma advancing_solutionsOf fuel vs c (envs : Gen Env) :
  advancing c envs → advancing c (solutionsOf fuel vs envs).
Proof.
  revert c. induction envs as [d|e d resume IH|]; intros c; simpl; [done| |done].
  intros [Hd Hres]. destruct (solution fuel e vs); [|done]. simpl.
  split; [done|]. intros c'' Hc. by apply IH, Hres.
Qed.

Lemma toList_advancing {A} c (gen : Gen A) l c' :
  advancing c gen → toList gen = Some (l, c') → c ≤ c'.
Proof.
  revert c l. induction gen as [d|a d resume IH|]; intros c l; simpl.
  - intros Hd [= <- <-]. done.
  - intros [Hd Hres] H.
    destruct (toList (resume d)) as [[l0 c0]|] eqn:H0; [|discriminate].
    injection H as <- <-.
    specialize (IH d d l0 (Hres d (Z.le_refl d)) H0). lia.
  - discriminate.
Qed.

(** X14: the id counter only grows: an enumeration of the solutions of a
    query that runs to its end leaves the counter above where it started,
    so no id drawn during it is handed out again afterwards. *)
Theorem query_counter_advances fuel (prop : Prop_) (env0 : Env) (k : Knowledge)
    count l count' :
  toList (query fuel prop env0 k count) = Some (l, count') → count < count'.
Proof.
  intros H. unfold query, proveCore in H. cbn [Prop_.refresh nextVarId] in H.
  assert (count + 1 ≤ count'); [|lia].
  eapply toList_advancing; [|exact H].
  apply advancing_solutionsOf, advancing_envsOf, advancing_proveProp.
Qed.

Lemma query_counter_advances_witness :
  toList (query 4 (Atomic (mortal (free "x"))) Env.default syllogism 0)
    = Some ([[Bound "x" xSocrates]; [Bound "x" xPlato]], 4) ∧
  0 < 4.
Proof.
  split; [reflexivity|].
  apply (query_counter_advances 4 (Atomic (mortal (free "x"))) Env.default syllogism
           0 [[Bound "x" xSocrates]; [Bound "x" xPlato]] 4).
  reflexivity.
Defined.

(** X15: the same for the prover alone, at every step: each result of
    [proveProp] is yielded with a counter that is not below the one the
    proof was started or last resumed with. *)
Theorem proveProp_counter_advances fuel (prop : Prop_) (env0 : Env) (k : Knowledge) count :
  advancing count (proveProp fuel prop env0 k count).
Proof. apply advancing_proveProp. Qed.

(** ** Queries without variables *)

Lemma map_nil_inv {A B} (f : A → B) (l : list A) : map f l = [] → l = [].
Proof. by destruct l. Qed.

(** X16: a query that mentions no variable is answered by empty
    solutions only: each proof of it yields the empty list of
    assignments. *)
Theorem query_ground fuel (prop : Prop_) (env0 : Env) (k : Knowledge) count :
  Prop_.vars prop = [] →
  allYields (fun s => s = []) (query fuel prop env0 k count).
Proof.
  intros Hv. unfold query. cbn [Prop_.refresh nextVarId].
  assert (Prop_.vars (Prop_.withVarId prop (count + 1)) = []) as ->.
  { apply (map_nil_inv varName). by rewrite prop_withVarId_names, Hv. }
  eapply allYields_mono; [|apply solutionsOf_names].
  intros s Hs. simpl in Hs. by apply (map_nil_inv assignmentName).
Qed.

Lemma query_ground_witness :
  allYields (fun s => s = [])
            (query 4 (Atomic (mortal xSocrates)) Env.default syllogism 0).
Proof.
  apply (query_ground 4 (Atomic (mortal xSocrates)) Env.default syllogism 0).
  reflexivity.
Defined.

(** * Further properties of the knowledge base and of renaming *)

Lemma rules_assumeMany_returns (k : Knowledge) (rs : list Rule) :
  Forall (fun rule => inherited (pred (head rule)) = false) rs →
  ∃ k', Knowledge.assumeMany k rs = Some k' ∧
        ∀ p : string,
          Knowledge.rules k' p
          = (fun old => old ++ filter (fun rule => pred (head rule) = p) rs)
              <$> Knowledge.rules k p.
Proof.
  intros Hrs. revert k. induction Hrs as [|rule rest Hrule _ IH]; intros k.
  - exists k. split; [done|]. intros p. simpl.
    destruct (Knowledge.rules k p) as [old|]; [|done]. simpl. by rewrite app_nil_r.
  - destruct (rules_not_inherited k _ Hrule) as [old0 Hold0].
    assert (Knowledge.assume k rule = Some (<[pred (head rule) := old0 ++ [rule]]> k))
      as Ha by (unfold Knowledge.assume; by rewrite Hold0).
    destruct (IH (<[pred (head rule) := old0 ++ [rule]]> k)) as (k' & Hk' & Hrules).
    exists k'. split; [simpl; by rewrite Ha|].
    intros p. rewrite Hrules, filter_cons.
    destruct (decide (pred (head rule) = p)) as [<-|Hne].
    + destruct (rules_assume_eq _ _ _ Ha) as (old & Hold & ->).
      rewrite Hold. simpl. by rewrite <- app_assoc.
    + by rewrite (rules_assume_ne _ _ _ p Ha) by congruence.
Qed.

(** X17: when none of the rules has a head under a name that objects
    inherit, [assumeMany] returns, and the rules of a predicate are then
    the rules it had before, followed by the new rules with that predicate
    in their head, in the order they were given; the rules of other
    predicates in the list do not get in between. *)
Theorem rules_assumeMany (k : Knowledge) (rs : list Rule) :
  Forall (fun rule => inherited (pred (head rule)) = false) rs →
  ∃ k', Knowledge.assumeMany k rs = Some k' ∧
        ∀ p : string,
          Knowledge.rules k' p
          = (fun old => old ++ filter (fun rule => pred (head rule) = p) rs)
              <$> Knowledge.rules k p.
Proof. apply rules_assumeMany_returns. Qed.

Lemma rules_assumeMany_witness :
  Forall (fun rule => inherited (pred (head rule)) = false) [major; minor; platoRule] ∧
  ∃ k', Knowledge.assumeMany Knowledge.default [major; minor; platoRule] = Some k' ∧
        ∀ p : string,
          Knowledge.rules k' p
          = (fun old => old ++ filter (fun rule => pred (head rule) = p)
                                      [major; minor; platoRule])
              <$> Knowledge.rules Knowledge.default p.
Proof.
  assert (Forall (fun rule => inherited (pred (head rule)) = false)
                 [major; minor; platoRule]) as Hnames.
  { repeat constructor. }
  split; [exact Hnames|].
  exact (rules_assumeMany Knowledge.default [major; minor; platoRule] Hnames).
Defined.

Lemma term_vars_withVarId t id :
  Term.vars (Term.withVarId t id)
  = map (fun v => {| varId := id; varName := varName v |}) (Term.vars t).
Proof.
  induction t as [v|a|f x IH|h IHh tl IHt]; simpl; [done|done|done|].
  by rewrite map_app, IHh, IHt.
Qed.

Lemma prop_vars_withVarId prop id :
  Prop_.vars (Prop_.withVarId prop id)
  = map (fun v => {| varId := id; varName := varName v |}) (Prop_.vars prop).
Proof.
  induction prop as [p|l IHl r IHr]; simpl; [apply term_vars_withVarId|].
  by rewrite map_app, IHl, IHr.
Qed.

Lemma ruleVars_refresh rule count :
  ruleVars (Rule.refresh rule count).1
  = map (fun v => {| varId := count + 1; varName := varName v |}) (ruleVars rule).
Proof.
  unfold ruleVars. simpl. rewrite map_app, term_vars_withVarId.
  destruct (goal rule) as [g|]; [|done]. by rewrite prop_vars_withVarId.
Qed.

(** X18: [Rule.refresh] draws exactly one id and gives it to every
    variable of the head and of the goal, keeping the predicate and the
    names of the variables in their order; two instances of a rule made at
    different counts therefore have no variable in common. *)
Theorem refresh_fresh (rule : Rule) (count : Z) :
  (Rule.refresh rule count).2 = count + 1 ∧
  pred (head (Rule.refresh rule count).1) = pred (head rule) ∧
  ruleVars (Rule.refresh rule count).1
    = map (fun v => {| varId := count + 1; varName := varName v |}) (ruleVars rule) ∧
  ∀ count' v, count' ≠ count →
    v ∈ ruleVars (Rule.refresh rule count).1 →
    v ∉ ruleVars (Rule.refresh rule count').1.
Proof.
  split; [done|]. split; [done|]. split; [apply ruleVars_refresh|].
  intros count' v Hne. rewrite !ruleVars_refresh.
  intros (w & -> & _)%list_elem_of_fmap (w' & Heq & _)%list_elem_of_fmap.
  injection Heq as Hid _. lia.
Qed.

Lemma refresh_fresh_witness :
  {| varId := 2; varName := "x" |} ∈ ruleVars (Rule.refresh major 1).1 ∧
  {| varId := 2; varName := "x" |} ∉ ruleVars (Rule.refresh major 2).1.
Proof.
  assert ({| varId := 2; varName := "x" |} ∈ ruleVars (Rule.refresh major 1).1) as Hin.
  { apply list_elem_of_here. }
  split; [exact Hin|].
  destruct (refresh_fresh major 1) as (_ & _ & _ & Hfresh).
  apply (Hfresh 2 {| varId := 2; varName := "x" |}); [lia|exact Hin].
Defined.

Lemma term_withVarId_twice t a b :
  Term.withVarId (Term.withVarId t a) b = Term.withVarId t b.
Proof.
  induction t as [v|s|f x IH|h IHh tl IHt]; simpl; [done|done| |].
  - by rewrite IH.
  - by rewrite IHh, IHt.
Qed.

Lemma prop_withVarId_twice prop a b :
  Prop_.withVarId (Prop_.withVarId prop a) b = Prop_.withVarId prop b.
Proof.
  induction prop as [p|l IHl r IHr]; simpl.
  - by rewrite term_withVarId_twice.
  - by rewrite IHl, IHr.
Qed.

(** X19: renaming forgets earlier renamings and leaves what has no
    variable alone: refreshing an instance of a rule or of a proposition
    gives what refreshing the original gives, and a term without variables
    is unchanged by [withVarId]. *)
Theorem refresh_forgets (rule : Rule) (prop : Prop_) (count count' : Z) :
  Rule.refresh (Rule.refresh rule count).1 count' = Rule.refresh rule count' ∧
  Prop_.refresh (Prop_.refresh prop count).1 count' = Prop_.refresh prop count' ∧
  ∀ t id, Term.vars t = [] → Term.withVarId t id = t.
Proof.
  split; [|split].
  - unfold Rule.refresh. simpl. rewrite term_withVarId_twice.
    destruct (goal rule) as [g|]; [|done]. by rewrite prop_withVarId_twice.
  - unfold Prop_.refresh. simpl. by rewrite prop_withVarId_twice.
  - apply term_withVarId_ground.
Qed.

Lemma refresh_forgets_witness :
  Rule.refresh (Rule.refresh major 1).1 5 = Rule.refresh major 5 ∧
  Term.withVarId listSocratesPlato 7 = listSocratesPlato.
Proof.
  destruct (refresh_forgets major (Atomic (mortal (free "x"))) 1 5) as (Hrule & _ & Hground).
  split; [exact Hrule|]. apply (Hground listSocratesPlato 7). reflexivity.
Defined.

(** * Further properties of the store *)

Lemma wellFormed_default (h : Store.Heap) :
  Store.wellFormed (Store.default h).2 (Store.default h).1.
Proof.
  exists ∅. split; [apply alloc_new|]. intros p a Hp.
  rewrite lookup_empty in Hp. discriminate Hp.
Qed.

(** X20: well-formedness is kept: [Knowledge.default()] makes a
    well-formed knowledge object, and after [assume] on a well-formed one
    both the new object and the old are well formed; the new object refers
    to the very arrays of the old for every predicate but the rule's own,
    whose array alone is new.  So [assume] returns on every knowledge object
    built from [default] by [assume]. *)
Theorem assume_wellFormed (h : Store.Heap) (k : Store.loc) (rule : Rule)
    (k' : Store.loc) (h' : Store.Heap) :
  Store.wellFormed h k →
  Store.assume h k rule = Some (k', h') →
  Store.wellFormed h' k' ∧ Store.wellFormed h' k ∧
  ∃ props props' a,
    h !! k = Some (Store.KnowledgeObject props) ∧
    h' !! k' = Some (Store.KnowledgeObject props') ∧
    props' !! pred (head rule) = Some a ∧ h !! a = None ∧
    ∀ p : string, p ≠ pred (head rule) → props' !! p = props !! p.
Proof.
  intros (props & Hk & Hprops) H.
  destruct (assume_inv _ _ _ _ _ H) as (props0 & old & Hk0 & Hold & -> & ->).
  rewrite Hk in Hk0. injection Hk0 as <-.
  split; [|split].
  - exists (<[pred (head rule) := length h]> props).
    split; [apply lookup_snoc_second|]. intros p a Hp.
    destruct (decide (p = pred (head rule))) as [->|Hne].
    + rewrite lookup_insert_eq in Hp. injection Hp as <-.
      eexists. apply lookup_snoc_first.
    + rewrite lookup_insert_ne in Hp by congruence.
      destruct (Hprops p a Hp) as [rs Hrs]. exists rs. by apply lookup_snoc_old.
  - exists props. split; [by apply lookup_snoc_old|]. intros p a Hp.
    destruct (Hprops p a Hp) as [rs Hrs]. exists rs. by apply lookup_snoc_old.
  - exists props, (<[pred (head rule) := length h]> props), (length h).
    split; [done|]. split; [apply lookup_snoc_second|].
    split; [apply lookup_insert_eq|]. split; [by apply lookup_ge_None|].
    intros p Hp. by rewrite lookup_insert_ne by congruence.
Qed.

Lemma assume_wellFormed_witness :
  Store.wellFormed emptyStore 0%nat ∧
  Store.wellFormed
    [Store.KnowledgeObject ∅; Store.RuleArray [minor];
     Store.KnowledgeObject {[ "human" := 1%nat ]}] 2%nat.
Proof.
  split; [exact emptyStore_wellFormed|].
  apply (assume_wellFormed emptyStore 0%nat minor 2%nat
           [Store.KnowledgeObject ∅; Store.RuleArray [minor];
            Store.KnowledgeObject {[ "human" := 1%nat ]}]).
  - exact emptyStore_wellFormed.
  - reflexivity.
Defined.

(** * Further properties of rules and solutions *)

Lemma toList_nil_inv {A} (gen : Gen A) c : toList gen = Some ([], c) → gen = Done c.
Proof.
  destruct gen as [d|a d resume|]; simpl; [by intros [= ->]| |discriminate].
  by destruct (toList (resume d)) as [[l c']|].
Qed.

(** X21: a rule whose body has no result does not stop the search, even
    when the body ran a cut before it failed: the cut flag travels on
    results only, so the loop goes on with the next rule, from the counter
    the failed body left. *)
Theorem ruleLoop_failed_body (proveGoal : Prop_ → Env → Z → Gen ProveResult)
    fuel (prop : PredProp) (env0 : Env) (rule : Rule) (rest : list Rule) count
    (env2 : Env) (g : Prop_) count2 :
  Env.tryUnify fuel env0 (term prop) (term (head (Rule.refresh rule count).1))
    = Some (Some env2) →
  goal (Rule.refresh rule count).1 = Some g →
  toList (proveGoal g env2 (count + 1)) = Some ([], count2) →
  ruleLoop proveGoal fuel prop env0 (rule :: rest) count
  = ruleLoop proveGoal fuel prop env0 rest count2.
Proof.
  intros Hu Hg Hnone. cbn [ruleLoop].
  change (Rule.refresh rule count) with ((Rule.refresh rule count).1, count + 1).
  cbv beta iota. rewrite Hu, Hg.
  by rewrite (toList_nil_inv _ _ Hnone).
Qed.

Lemma ruleLoop_failed_body_witness :
  ruleLoop (fun g e c => proveProp 3 g e cutFailKnowledge c) 3
           (nullary "p") Env.default [pCutQ; pR] 0
  = ruleLoop (fun g e c => proveProp 3 g e cutFailKnowledge c) 3
             (nullary "p") Env.default [pR] 1.
Proof.
  apply (ruleLoop_failed_body (fun g e c => proveProp 3 g e cutFailKnowledge c) 3
           (nullary "p") Env.default pCutQ [pR] 0 Env.default
           (ConjProp (Atomic CutProp) (Atomic (nullary "q"))) 1).
  - reflexivity.
  - reflexivity.
  - reflexivity.
Defined.



(** X23: the order of assertion matters within a predicate only: two
    rules for different predicates can be assumed in either order; the
    resulting knowledge bases are the same, and when one order throws, so
    does the other. *)
Theorem assume_commutes (k : Knowledge) (rule1 rule2 : Rule) :
  pred (head rule1) ≠ pred (head rule2) →
  (Knowledge.assume k rule1 ≫= fun k1 => Knowledge.assume k1 rule2)
  = (Knowledge.assume k rule2 ≫= fun k2 => Knowledge.assume k2 rule1).
Proof.
  intros Hne.
  assert (∀ (ka : Knowledge) ra rb old,
            pred (head ra) ≠ pred (head rb) →
            Knowledge.rules (<[pred (head ra) := old]> ka) (pred (head rb))
            = Knowledge.rules ka (pred (head rb))) as Hother.
  { intros ka ra rb old Hab. unfold Knowledge.rules. by rewrite lookup_insert_ne. }
  unfold Knowledge.assume.
  destruct (Knowledge.rules k (pred (head rule1))) as [old1|] eqn:H1;
    destruct (Knowledge.rules k (pred (head rule2))) as [old2|] eqn:H2; simpl.
  - rewrite (Hother k rule1 rule2), (Hother k rule2 rule1), H1, H2 by congruence.
    f_equal. by apply insert_insert_ne.
  - by rewrite (Hother k rule1 rule2), H2 by congruence.
  - by rewrite (Hother k rule2 rule1), H1 by congruence.
  - done.
Qed.

Lemma assume_commutes_witness :
  (Knowledge.assume Knowledge.default major ≫= fun k1 => Knowledge.assume k1 minor)
  = (Knowledge.assume Knowledge.default minor ≫= fun k2 => Knowledge.assume k2 major).
Proof.
  apply (assume_commutes Knowledge.default major minor). discriminate.
Defined.

